(** * AlSurface layer BRDF (appleseed): a shallow embedding

    Source: src/appleseed/renderer/modeling/bsdf/alsurfacelayerbrdf.cpp

    The C++ code computes on [float] (IEEE 754 binary32) values.  They are
    embedded as the Standard Library's [spec_float] with precision 24 and
    maximal exponent 128, so every arithmetic operation below rounds to
    nearest-even, overflows and underflows as the machine operation does
    (each operation rounded on its own: no fused multiply-add, no extended
    intermediate precision).

    The microfacet distributions, the Fresnel functors, the shading basis,
    the sampling context and the nested (substrate) BSDF are collaborators
    whose code lives in other files; they are taken as parameters.  Output
    parameters ([Spectrum& value], [BSDFSample& sample]) come back in the
    result of the embedded function. *)

From Stdlib Require Import ZArith List Bool Lia.
From Stdlib Require Import SpecFloat.
Import ListNotations.
Local Open Scope Z_scope.

(* ================================================================= *)
(** * Part I: definitions *)
(* ================================================================= *)

(** ** Single-precision scalars *)

Definition float : Type := spec_float.

Definition prec32 : Z := 24.
Definition emax32 : Z := 128.

Definition fadd : float -> float -> float := SFadd prec32 emax32.
Definition fsub : float -> float -> float := SFsub prec32 emax32.
Definition fmul : float -> float -> float := SFmul prec32 emax32.
Definition fdiv : float -> float -> float := SFdiv prec32 emax32.
Definition fneg : float -> float := SFopp.
Definition fabs : float -> float := SFabs.

(** C++ comparisons: every comparison with a NaN is false, except [!=]. *)
Definition flt : float -> float -> bool := SFltb.
Definition fle : float -> float -> bool := SFleb.
Definition feq : float -> float -> bool := SFeqb.
Definition fneq (x y : float) : bool := negb (feq x y).

(** The literals [0.0f], [0.5f], [1.0f], [2.0f] and [4.0f]. *)
Definition f0 : float := S754_zero false.
Definition fhalf : float := S754_finite false 8388608 (-24).
Definition f1 : float := S754_finite false 8388608 (-23).
Definition f2 : float := S754_finite false 8388608 (-22).
Definition f4 : float := S754_finite false 8388608 (-21).

Definition is_nan (x : float) : bool :=
  match x with S754_nan => true | _ => false end.

(** Zero or finite: neither an infinity nor a NaN. *)
Definition is_finite (x : float) : bool :=
  match x with S754_zero _ | S754_finite _ _ _ => true | _ => false end.

(** Well-formed binary32 datum: the mantissa is canonical for its exponent. *)
Definition valid32 (x : float) : bool := valid_binary prec32 emax32 x.

(** The float [2^e] (rounded when [e] is out of range). *)
Definition fpow2 (e : Z) : float := binary_normalize prec32 emax32 1 e false.

(** ** Scalar helpers of foundation/math/scalar.h *)

(** Modelled from the spec: [square] is foundation's squaring helper
    (foundation/math/scalar.h is not under src/); the spec writes
    [alpha = roughness²], one multiplication. *)
Definition square (x : float) : float := fmul x x.

(** Modelled from the spec: [lerp] is foundation's linear interpolation
    (foundation/math/scalar.h is not under src/), [lerp(a, b, t)] being
    [(1 - t) * a + t * b]. *)
Definition lerp (a b t : float) : float :=
  fadd (fmul (fsub f1 t) a) (fmul t b).

(** Modelled from the spec: [saturate] is foundation's clamp to [0,1]
    (foundation/math/scalar.h is not under src/), written with the two
    comparisons of a C++ clamp. *)
Definition saturate (x : float) : float :=
  if flt x f0 then f0 else if flt f1 x then f1 else x.

(** ** Vectors *)

(** Modelled from the spec: foundation's [Vector3f] (foundation/math/vector.h
    is not under src/), a direction with components [x], [y], [z]; the
    source reads [.y], the component along the shading normal. *)
Record Vector3f : Type := mkVector3f { vx : float; vy : float; vz : float }.

(** Modelled from the spec: foundation's [Vector4f], the block of four
    randoms, read with [s[0]] .. [s[3]] in the source. *)
Record Vector4f : Type :=
  mkVector4f { s_0 : float; s_1 : float; s_2 : float; s_3 : float }.

(** Modelled from the spec: unary minus of foundation's [Vector3f]
    (foundation/math/vector.h is not under src/), component by component. *)
Definition vneg (v : Vector3f) : Vector3f :=
  mkVector3f (fneg (vx v)) (fneg (vy v)) (fneg (vz v)).

(** Modelled from the spec: addition of foundation's [Vector3f], component
    by component. *)
Definition vadd (a b : Vector3f) : Vector3f :=
  mkVector3f (fadd (vx a) (vx b)) (fadd (vy a) (vy b)) (fadd (vz a) (vz b)).

(** ** Spectra *)

(** Modelled from the spec: a [Spectrum] (foundation's spectrum header is
    not under src/) is its list of channels. *)
Definition Spectrum : Type := list float.

(** Modelled from the spec: [value.set(x)] of a spectrum, every channel
    becomes [x]. *)
Definition spectrum_set (value : Spectrum) (x : float) : Spectrum :=
  map (fun _ => x) value.

(** Modelled from the spec: [value *= x] of a spectrum for a scalar [x],
    every channel is multiplied by [x]. *)
Definition spectrum_scale (value : Spectrum) (x : float) : Spectrum :=
  map (fun c => fmul c x) value.

(** Modelled from the spec: [value *= rhs] of a spectrum for a spectrum
    [rhs], channel by channel. *)
Definition spectrum_mul (value rhs : Spectrum) : Spectrum :=
  map (fun cr => fmul (fst cr) (snd cr)) (combine value rhs).

(** Modelled from the spec: [madd(a, b, c)] adds [b * c] into [a] channel by
    channel (foundation's spectrum header is not under src/). *)
Definition madd (a b : Spectrum) (c : float) : Spectrum :=
  map (fun xy => fadd (fst xy) (fmul (snd xy) c)) (combine a b).

(** Modelled from the spec: [max_value] is the maximum spectral channel
    (foundation's spectrum header is not under src/): a running maximum
    started at the first channel.  A spectrum has at least one channel; the
    empty list is given 0. *)
Definition max_value (s : Spectrum) : float :=
  match s with
  | [] => f0
  | c :: rest =>
      fold_left (fun value x => if flt value x then x else value) rest c
  end.

(** ** Collaborator types *)

Record HostTypes : Type := {
  SamplingContext : Type;   (* the integrator's sampling cursor *)
  Basis3f : Type;           (* orthonormal shading basis *)
  Dual3f : Type;            (* a direction with its ray differentials *)
  ClosureData : Type;       (* memory behind [m_substrate_closure_data] *)
  ClosureInputs : Type;     (* the input-values block of one closure *)
  ClosureColor : Type;      (* the OSL closure behind [m_substrate] *)
  ShadingContext : Type;
  ShadingPoint : Type
}.

(** The enumerations of the class. *)
Definition Beckmann : Z := 0.
Definition GGX : Z := 1.
Definition Dielectric : Z := 0.
Definition Metallic : Z := 1.

(** A microfacet distribution function ([MDF<float>]): its four methods,
    defined in foundation/math/microfacet.h. *)
Record MDF : Type := {
  mdf_sample : Vector3f -> Vector3f -> float -> float -> Vector3f;
  mdf_D : Vector3f -> float -> float -> float;
  mdf_G : Vector3f -> Vector3f -> Vector3f -> float -> float -> float;
  mdf_pdf : Vector3f -> Vector3f -> float -> float -> float
}.

Section Model.

Variable W : HostTypes.

(** Modelled from the spec: [BSDFSample] (declared in the renderer's BSDF
    headers, not under src/), with the fields the layer reads or writes. *)
Record BSDFSample : Type := {
  m_shading_basis : Basis3f W;
  m_outgoing : Dual3f W;
  m_incoming : Dual3f W;
  m_value : Spectrum;
  m_probability : float;
  m_mode : Z
}.

(** The scattering-function protocol, as the substrate implements it.
    [Spectrum& value] is an output parameter: it comes back in the result. *)
Record BSDF : Type := {
  bsdf_prepare_inputs :
    ShadingContext W -> ShadingPoint W -> ClosureData W -> ClosureData W;
  bsdf_sample :
    SamplingContext W -> ClosureData W -> bool -> bool -> BSDFSample ->
    SamplingContext W * BSDFSample;
  bsdf_evaluate :
    ClosureData W -> bool -> bool -> Vector3f -> Basis3f W ->
    Vector3f -> Vector3f -> Z -> float * Spectrum;
  bsdf_evaluate_pdf :
    ClosureData W -> Vector3f -> Basis3f W -> Vector3f -> Vector3f -> Z -> float
}.

Record Precomputed : Type := { m_alpha_x : float; m_alpha_y : float }.

(** Modelled from the spec: [AlSurfaceLayerBRDFInputValues] (declared in
    alsurfacelayerbrdf.h, not under src/), the per-shading-point values of
    the spec with the field names the source uses. *)
Record InputValues : Type := {
  m_distribution : Z;
  m_reflectance : Spectrum;
  m_roughness : float;
  m_anisotropy : float;
  m_fresnel_mode : Z;
  m_ior : float;
  m_normal_reflectance : Spectrum;
  m_edge_tint : Spectrum;
  m_substrate : ClosureColor W;
  m_substrate_closure_data : ClosureData W;
  m_osl_bsdf : BSDF;
  m_precomputed : Precomputed
}.

(** Functions and constants of the renderer and of foundation that the
    layer calls and that are defined in other files. *)
Record Host : Type := {
  transform_to_local : Basis3f W -> Vector3f -> Vector3f;
  transform_to_parent : Basis3f W -> Vector3f -> Vector3f;
  get_value : Dual3f W -> Vector3f;
  make_dual : Vector3f -> Dual3f W;
  compute_reflected_differentials : BSDFSample -> BSDFSample;
  split_in_place : SamplingContext W -> Z -> Z -> SamplingContext W;
  next2 : SamplingContext W -> Vector4f * SamplingContext W;
  m_beckmann_mdf : MDF;
  m_ggx_mdf : MDF;
  FresnelDielectricFun :
    Spectrum -> float -> float -> Vector3f -> Vector3f -> Vector3f -> Spectrum;
  FresnelFriendlyConductorFun :
    Spectrum -> Spectrum -> float -> Vector3f -> Vector3f -> Vector3f -> Spectrum;
  has_glossy : Z -> bool;
  Glossy : Z;
  dot : Vector3f -> Vector3f -> float;
  normalize : Vector3f -> Vector3f;
  reflect : Vector3f -> Vector3f -> Vector3f;
  improve_normalization : Vector3f -> Vector3f;
  get_shading_basis : ShadingPoint W -> Basis3f W;
  osl_mem_alloc : ShadingContext W -> ClosureData W;
  new_CompositeSurfaceClosure :
    ClosureData W -> Basis3f W -> ClosureColor W -> ClosureData W;
  get_num_closures : ClosureData W -> nat;
  get_closure_type : ClosureData W -> nat -> Z;
  get_closure_input_values : ClosureData W -> nat -> ClosureInputs W;
  set_closure_input_values :
    ClosureData W -> nat -> ClosureInputs W -> ClosureData W;
  inject_layered_closure_values :
    Z -> BSDF -> ClosureInputs W -> ClosureInputs W;
  FirstLayeredClosure : Z
}.

Variable H : Host.

(** ** [prepare_inputs] *)

(** Lines 120-132: the anisotropic widths. *)
Definition precompute_alpha (roughness anisotropy : float) : Precomputed :=
  let alpha := square roughness in
  if fneq anisotropy fhalf then
    let t := square (fsub (fmul f2 anisotropy) f1) in
    if flt anisotropy fhalf
    then {| m_alpha_x := lerp alpha f1 t; m_alpha_y := alpha |}
    else {| m_alpha_x := alpha; m_alpha_y := lerp alpha f1 t |}
  else {| m_alpha_x := alpha; m_alpha_y := alpha |}.

(** Lines 142-150: the loop that injects the layer's values into the
    layered closures of the tree; [inject_layered_closure_values] writes
    through the pointer [get_closure_input_values] returns. *)
Definition inject_children (bsdf : BSDF) (c : ClosureData W) : ClosureData W :=
  fold_left
    (fun c i =>
       let cid := get_closure_type H c i in
       if FirstLayeredClosure H <=? cid
       then set_closure_input_values H c i
              (inject_layered_closure_values H cid bsdf
                 (get_closure_input_values H c i))
       else c)
    (seq 0 (get_num_closures H c)) c.

Definition prepare_inputs
  (shading_context : ShadingContext W) (shading_point : ShadingPoint W)
  (values : InputValues) : InputValues :=
  let precomputed :=
    precompute_alpha (m_roughness values) (m_anisotropy values) in
  let c :=
    new_CompositeSurfaceClosure H (osl_mem_alloc H shading_context)
      (get_shading_basis H shading_point) (m_substrate values) in
  let c := inject_children (m_osl_bsdf values) c in
  let c :=
    bsdf_prepare_inputs (m_osl_bsdf values) shading_context shading_point c in
  {| m_distribution := m_distribution values;
     m_reflectance := m_reflectance values;
     m_roughness := m_roughness values;
     m_anisotropy := m_anisotropy values;
     m_fresnel_mode := m_fresnel_mode values;
     m_ior := m_ior values;
     m_normal_reflectance := m_normal_reflectance values;
     m_edge_tint := m_edge_tint values;
     m_substrate := m_substrate values;
     m_substrate_closure_data := c;
     m_osl_bsdf := m_osl_bsdf values;
     m_precomputed := precomputed |}.

(** ** Private helpers of the class *)

Definition pick_mdf (distribution : Z) : MDF :=
  if distribution =? Beckmann then m_beckmann_mdf H else m_ggx_mdf H.

(** [fresnel_term]: the returned weight and the spectrum written to [value]. *)
Definition fresnel_term
  (values : InputValues) (wo m : Vector3f) : float * Spectrum :=
  let n := mkVector3f f0 f1 f0 in
  let wo := if flt (vy wo) f0 then vneg wo else wo in
  let value :=
    if m_fresnel_mode values =? Dielectric then
      FresnelDielectricFun H
        (m_reflectance values) f1 (fdiv f1 (m_ior values)) wo m n
    else
      spectrum_mul
        (FresnelFriendlyConductorFun H
           (m_normal_reflectance values) (m_edge_tint values) f1 wo m n)
        (m_reflectance values) in
  (saturate (max_value value), value).

Definition half_reflection_vector (wi wo : Vector3f) : Vector3f :=
  let h := normalize H (vadd wi wo) in
  if flt (vy h) f0 then vneg h else h.

(** [evaluate_reflection]: the spectrum left in [value]. *)
Definition evaluate_reflection
  (values : InputValues) (mdf : MDF) (wi wo m : Vector3f) (value : Spectrum)
  : Spectrum :=
  let denom := fabs (fmul (fmul f4 (vy wo)) (vy wi)) in
  if feq denom f0 then spectrum_set value f0
  else
    let D :=
      mdf_D mdf m
        (m_alpha_x (m_precomputed values)) (m_alpha_y (m_precomputed values)) in
    let G :=
      mdf_G mdf wi wo m
        (m_alpha_x (m_precomputed values)) (m_alpha_y (m_precomputed values)) in
    spectrum_scale value (fdiv (fmul D G) denom).

Definition reflection_pdf
  (values : InputValues) (mdf : MDF) (wo m : Vector3f) : float :=
  let cos_wom := dot H wo m in
  if feq cos_wom f0 then f0
  else
    let jacobian := fdiv f1 (fmul f4 (fabs cos_wom)) in
    fmul jacobian
      (mdf_pdf mdf wo m
         (m_alpha_x (m_precomputed values)) (m_alpha_y (m_precomputed values))).

(** ** [sample] *)

Definition set_value (sample : BSDFSample) (value : Spectrum) : BSDFSample :=
  {| m_shading_basis := m_shading_basis sample;
     m_outgoing := m_outgoing sample;
     m_incoming := m_incoming sample;
     m_value := value;
     m_probability := m_probability sample;
     m_mode := m_mode sample |}.

(** Lines 184-200: the coating branch; [sample] already holds the Fresnel
    spectrum in [m_value]. *)
Definition sample_coating
  (values : InputValues) (mdf : MDF) (wo m : Vector3f) (sample : BSDFSample)
  : BSDFSample :=
  let wi := improve_normalization H (reflect H wo m) in
  if fle (fmul (vy wi) (vy wo)) f0 then sample
  else
    compute_reflected_differentials H
      {| m_shading_basis := m_shading_basis sample;
         m_outgoing := m_outgoing sample;
         m_incoming :=
           make_dual H (transform_to_parent H (m_shading_basis sample) wi);
         m_value := evaluate_reflection values mdf wi wo m (m_value sample);
         m_probability := reflection_pdf values mdf wo m;
         m_mode := Glossy H |}.

Definition sample
  (sampling_context : SamplingContext W) (values : InputValues)
  (adjoint cosine_mult : bool) (sample : BSDFSample)
  : SamplingContext W * BSDFSample :=
  let shading_basis := m_shading_basis sample in
  let wo :=
    transform_to_local H shading_basis (get_value H (m_outgoing sample)) in
  (* Compute the microfacet normal by sampling the MDF. *)
  let mdf := pick_mdf (m_distribution values) in
  let sampling_context := split_in_place H sampling_context 4 1 in
  let '(s, sampling_context) := next2 H sampling_context in
  let m :=
    mdf_sample mdf wo (mkVector3f (s_0 s) (s_1 s) (s_2 s))
      (m_alpha_x (m_precomputed values)) (m_alpha_y (m_precomputed values)) in
  (* Choose between layer and substrate. *)
  let '(layer_probability, value) := fresnel_term values wo m in
  let sample := set_value sample value in
  if flt (s_3 s) layer_probability then
    (sampling_context, sample_coating values mdf wo m sample)
  else
    (* Sample the substrate. *)
    bsdf_sample (m_osl_bsdf values)
      sampling_context (m_substrate_closure_data values) adjoint false sample.

(** ** [evaluate] and [evaluate_pdf] *)

(** The test that sends a call to the substrate alone. *)
Definition gated_out (modes : Z) (wi wo : Vector3f) : bool :=
  negb (has_glossy H modes) || flt (fmul (vy wi) (vy wo)) f0.

Definition evaluate
  (values : InputValues) (adjoint cosine_mult : bool)
  (geometric_normal : Vector3f) (shading_basis : Basis3f W)
  (outgoing incoming : Vector3f) (modes : Z) : float * Spectrum :=
  let wi := transform_to_local H shading_basis incoming in
  let wo := transform_to_local H shading_basis outgoing in
  if gated_out modes wi wo then
    bsdf_evaluate (m_osl_bsdf values) (m_substrate_closure_data values)
      adjoint false geometric_normal shading_basis outgoing incoming modes
  else
    let m := half_reflection_vector wi wo in
    let ft := fresnel_term values wo m in
    let layer_weight := fst ft in
    let mdf := pick_mdf (m_distribution values) in
    let value := evaluate_reflection values mdf wi wo m (snd ft) in
    let probability := fmul layer_weight (reflection_pdf values mdf wo m) in
    let substrate_weight := fsub f1 layer_weight in
    let sub :=
      bsdf_evaluate (m_osl_bsdf values) (m_substrate_closure_data values)
        adjoint false geometric_normal shading_basis outgoing incoming modes in
    let probability := fadd probability (fmul (fst sub) substrate_weight) in
    (probability, madd value (snd sub) substrate_weight).

Definition evaluate_pdf
  (values : InputValues) (geometric_normal : Vector3f)
  (shading_basis : Basis3f W) (outgoing incoming : Vector3f) (modes : Z)
  : float :=
  let wi := transform_to_local H shading_basis incoming in
  let wo := transform_to_local H shading_basis outgoing in
  if gated_out modes wi wo then
    bsdf_evaluate_pdf (m_osl_bsdf values) (m_substrate_closure_data values)
      geometric_normal shading_basis outgoing incoming modes
  else
    let m := half_reflection_vector wi wo in
    let layer_probability := fst (fresnel_term values wo m) in
    let mdf := pick_mdf (m_distribution values) in
    let probability :=
      fmul layer_probability (reflection_pdf values mdf wo m) in
    fadd probability
      (fmul
         (bsdf_evaluate_pdf (m_osl_bsdf values) (m_substrate_closure_data values)
            geometric_normal shading_basis outgoing incoming modes)
         (fsub f1 layer_probability)).

(** ** The calls made on a prepared buffer

    [sample], [evaluate] and [evaluate_pdf] receive the buffer as
    [const void* data]: the buffer a call leaves behind is the one it was
    given. *)

Inductive Call : Type :=
| CallSample (sampling_context : SamplingContext W)
    (adjoint cosine_mult : bool) (sample : BSDFSample)
| CallEvaluate (adjoint cosine_mult : bool) (geometric_normal : Vector3f)
    (shading_basis : Basis3f W) (outgoing incoming : Vector3f) (modes : Z)
| CallEvaluatePdf (geometric_normal : Vector3f)
    (shading_basis : Basis3f W) (outgoing incoming : Vector3f) (modes : Z).

Inductive Reply : Type :=
| ReplySample (r : SamplingContext W * BSDFSample)
| ReplyEvaluate (r : float * Spectrum)
| ReplyEvaluatePdf (r : float).

Definition invoke (data : InputValues) (c : Call) : InputValues * Reply :=
  match c with
  | CallSample ctx adjoint cosine_mult smp =>
      (data, ReplySample (sample ctx data adjoint cosine_mult smp))
  | CallEvaluate adjoint cosine_mult gn basis outgoing incoming modes =>
      (data,
       ReplyEvaluate
         (evaluate data adjoint cosine_mult gn basis outgoing incoming modes))
  | CallEvaluatePdf gn basis outgoing incoming modes =>
      (data, ReplyEvaluatePdf (evaluate_pdf data gn basis outgoing incoming modes))
  end.

(** The buffer after a sequence of calls. *)
Definition invoke_all (data : InputValues) (calls : list Call) : InputValues :=
  fold_left (fun d c => fst (invoke d c)) calls data.

End Model.

Arguments transform_to_local {W} _.
Arguments transform_to_parent {W} _.
Arguments get_value {W} _.
Arguments make_dual {W} _.
Arguments compute_reflected_differentials {W} _.
Arguments split_in_place {W} _.
Arguments next2 {W} _.
Arguments m_beckmann_mdf {W} _.
Arguments m_ggx_mdf {W} _.
Arguments FresnelDielectricFun {W} _.
Arguments FresnelFriendlyConductorFun {W} _.
Arguments has_glossy {W} _.
Arguments Glossy {W} _.
Arguments dot {W} _.
Arguments normalize {W} _.
Arguments reflect {W} _.
Arguments improve_normalization {W} _.
Arguments get_shading_basis {W} _.
Arguments osl_mem_alloc {W} _.
Arguments new_CompositeSurfaceClosure {W} _.
Arguments get_num_closures {W} _.
Arguments get_closure_type {W} _.
Arguments get_closure_input_values {W} _.
Arguments set_closure_input_values {W} _.
Arguments inject_layered_closure_values {W} _.
Arguments FirstLayeredClosure {W} _.
Arguments inject_children {W} H _ _.
Arguments m_shading_basis {W} _.
Arguments m_outgoing {W} _.
Arguments m_incoming {W} _.
Arguments m_value {W} _.
Arguments m_probability {W} _.
Arguments m_mode {W} _.
Arguments bsdf_prepare_inputs {W} _ _ _ _.
Arguments bsdf_sample {W} _ _ _ _ _ _.
Arguments bsdf_evaluate {W} _ _ _ _ _ _ _ _ _.
Arguments bsdf_evaluate_pdf {W} _ _ _ _ _ _ _.
Arguments m_distribution {W} _.
Arguments m_reflectance {W} _.
Arguments m_roughness {W} _.
Arguments m_anisotropy {W} _.
Arguments m_fresnel_mode {W} _.
Arguments m_ior {W} _.
Arguments m_normal_reflectance {W} _.
Arguments m_edge_tint {W} _.
Arguments m_substrate {W} _.
Arguments m_substrate_closure_data {W} _.
Arguments m_osl_bsdf {W} _.
Arguments m_precomputed {W} _.
Arguments prepare_inputs {W} H _ _ _.
Arguments pick_mdf {W} H _.
Arguments fresnel_term {W} H _ _ _.
Arguments half_reflection_vector {W} H _ _.
Arguments evaluate_reflection {W} _ _ _ _ _ _.
Arguments reflection_pdf {W} H _ _ _ _.
Arguments set_value {W} _ _.
Arguments sample_coating {W} H _ _ _ _ _.
Arguments sample {W} H _ _ _ _ _.
Arguments gated_out {W} H _ _ _.
Arguments evaluate {W} H _ _ _ _ _ _ _ _.
Arguments evaluate_pdf {W} H _ _ _ _ _ _.
Arguments invoke {W} H _ _.
Arguments CallSample {W} _ _ _ _.
Arguments CallEvaluate {W} _ _ _ _ _ _ _.
Arguments CallEvaluatePdf {W} _ _ _ _ _.
Arguments invoke_all {W} H _ _.

(** ** A reference instantiation

    A small, fully computable choice of collaborators, used to run the
    model on concrete inputs. *)

Definition ref_types : HostTypes :=
  {| SamplingContext := nat;
     Basis3f := unit;
     Dual3f := Vector3f;
     ClosureData := list Z;
     ClosureInputs := unit;
     ClosureColor := unit;
     ShadingContext := unit;
     ShadingPoint := unit |}.

(** A distribution that always draws the shading normal. *)
Definition ref_mdf : MDF :=
  {| mdf_sample := fun _ _ _ _ => mkVector3f f0 f1 f0;
     mdf_D := fun _ _ _ => f1;
     mdf_G := fun _ _ _ _ _ => f1;
     mdf_pdf := fun _ _ _ _ => f1 |}.

(** A substrate whose density is 1 and whose value is white. *)
Definition ref_substrate : BSDF ref_types :=
  Build_BSDF ref_types
    (fun _ _ c => c)
    (fun ctx _ _ _ smp =>
       (S ctx,
        Build_BSDFSample ref_types
          (m_shading_basis smp) (m_outgoing smp) (m_outgoing smp)
          [f1; f1; f1] f1 1))
    (fun _ _ _ _ _ _ _ _ => (f1, [f1; f1; f1]))
    (fun _ _ _ _ _ _ => f1).

Definition ref_dot (a b : Vector3f) : float :=
  fadd (fadd (fmul (vx a) (vx b)) (fmul (vy a) (vy b))) (fmul (vz a) (vz b)).

(** Mirror reflection of [wo] about [m]. *)
Definition ref_reflect (wo m : Vector3f) : Vector3f :=
  let d := ref_dot wo m in
  mkVector3f (fsub (fmul (fadd d d) (vx m)) (vx wo))
             (fsub (fmul (fadd d d) (vy m)) (vy wo))
             (fsub (fmul (fadd d d) (vz m)) (vz wo)).

(** The cursor counts the draws; the first block of randoms has a fourth
    component 0, the later ones 1. *)
Definition ref_next2 (ctx : nat) : Vector4f * nat :=
  (mkVector4f fhalf fhalf fhalf (if Nat.eqb ctx 0 then f0 else f1), S ctx).

Definition ref_host : Host ref_types :=
  Build_Host ref_types
    (fun _ v => v)                       (* transform_to_local *)
    (fun _ v => v)                       (* transform_to_parent *)
    (fun d => d)                         (* get_value *)
    (fun v => v)                         (* make_dual *)
    (fun smp => smp)                     (* compute_reflected_differentials *)
    (fun ctx _ _ => ctx)                 (* split_in_place *)
    ref_next2
    ref_mdf ref_mdf
    (fun reflectance _ _ _ _ _ => reflectance)
    (fun normal_reflectance _ _ _ _ _ => normal_reflectance)
    (fun modes => Z.testbit modes 1)     (* has_glossy *)
    2                                    (* Glossy *)
    ref_dot
    (fun v => v)                         (* normalize *)
    ref_reflect
    (fun v => v)                         (* improve_normalization *)
    (fun _ => tt)                        (* get_shading_basis *)
    (fun _ => [])                        (* osl_mem_alloc *)
    (fun c _ _ => c)                     (* new_CompositeSurfaceClosure *)
    (fun c => length c)                  (* get_num_closures *)
    (fun c i => nth i c 0)               (* get_closure_type *)
    (fun _ _ => tt)                      (* get_closure_input_values *)
    (fun c _ _ => c)                     (* set_closure_input_values *)
    (fun _ _ blk => blk)                 (* inject_layered_closure_values *)
    100.                                 (* FirstLayeredClosure *)

(** A buffer as the parameter evaluator fills it. *)
Definition ref_values
  (roughness anisotropy : float) (fresnel_mode : Z) (reflectance : Spectrum)
  : InputValues ref_types :=
  Build_InputValues ref_types
    GGX reflectance roughness anisotropy fresnel_mode (fadd f1 fhalf)
    [fhalf; fhalf; fhalf] [f1; f1; f1] tt [] ref_substrate
    {| m_alpha_x := f0; m_alpha_y := f0 |}.

(** A sample request with the given local outgoing direction. *)
Definition ref_sample (wo : Vector3f) : BSDFSample ref_types :=
  Build_BSDFSample ref_types tt wo (mkVector3f f0 f0 f0) [] f0 0.

Definition up : Vector3f := mkVector3f f0 f1 f0.
Definition down : Vector3f := mkVector3f f0 (fneg f1) f0.

(** ** The methods forwarded to the substrate *)

Section Medium.

Variable W : HostTypes.

(** [sample_ior] and [compute_absorption] of the nested BSDF: virtual
    methods, resolved on the object behind [m_osl_bsdf].
    [Spectrum& absorption] is handed over and comes back in the result. *)
Record SubstrateMedium : Type := {
  bsdf_sample_ior :
    BSDF W -> SamplingContext W -> ClosureData W -> SamplingContext W * float;
  bsdf_compute_absorption :
    BSDF W -> ClosureData W -> float -> Spectrum -> Spectrum
}.

Variable M : SubstrateMedium.

Definition sample_ior
  (sampling_context : SamplingContext W) (values : InputValues W)
  : SamplingContext W * float :=
  (* Forward to substrate. *)
  bsdf_sample_ior M (m_osl_bsdf values)
    sampling_context (m_substrate_closure_data values).

Definition compute_absorption
  (values : InputValues W) (distance : float) (absorption : Spectrum)
  : Spectrum :=
  (* Forward to substrate. *)
  bsdf_compute_absorption M (m_osl_bsdf values)
    (m_substrate_closure_data values) distance absorption.

End Medium.

Arguments bsdf_sample_ior {W} _ _ _ _.
Arguments bsdf_compute_absorption {W} _ _ _ _ _.
Arguments sample_ior {W} M _ _.
Arguments compute_absorption {W} M _ _ _.

(** The buffer with its two enumerators replaced. *)
Definition with_enumerators {W : HostTypes}
  (values : InputValues W) (distribution fresnel_mode : Z) : InputValues W :=
  Build_InputValues W
    distribution (m_reflectance values) (m_roughness values)
    (m_anisotropy values) fresnel_mode (m_ior values)
    (m_normal_reflectance values) (m_edge_tint values) (m_substrate values)
    (m_substrate_closure_data values) (m_osl_bsdf values)
    (m_precomputed values).

(** ** A closure tree as a list

    A second computable choice of collaborators, in which the composite
    closure is the list of its closures, each an identifier with one
    integer of input values. *)

Definition tree_types : HostTypes :=
  {| SamplingContext := nat;
     Basis3f := unit;
     Dual3f := Vector3f;
     ClosureData := list (Z * Z);
     ClosureInputs := Z;
     ClosureColor := list (Z * Z);
     ShadingContext := unit;
     ShadingPoint := unit |}.

(** Writes the input values of closure [i]; out of range, nothing. *)
Fixpoint tree_set (c : list (Z * Z)) (i : nat) (v : Z) : list (Z * Z) :=
  match c, i with
  | [], _ => []
  | (cid, _) :: rest, O => (cid, v) :: rest
  | x :: rest, S i => x :: tree_set rest i v
  end.

Definition tree_substrate : BSDF tree_types :=
  Build_BSDF tree_types
    (fun _ _ c => c)
    (fun ctx _ _ _ smp => (S ctx, smp))
    (fun _ _ _ _ _ _ _ _ => (f1, [f1; f1; f1]))
    (fun _ _ _ _ _ _ => f1).

Definition tree_host : Host tree_types :=
  Build_Host tree_types
    (fun _ v => v)                       (* transform_to_local *)
    (fun _ v => v)                       (* transform_to_parent *)
    (fun d => d)                         (* get_value *)
    (fun v => v)                         (* make_dual *)
    (fun smp => smp)                     (* compute_reflected_differentials *)
    (fun ctx _ _ => ctx)                 (* split_in_place *)
    ref_next2
    ref_mdf ref_mdf
    (fun reflectance _ _ _ _ _ => reflectance)
    (fun normal_reflectance _ _ _ _ _ => normal_reflectance)
    (fun modes => Z.testbit modes 1)     (* has_glossy *)
    2                                    (* Glossy *)
    ref_dot
    (fun v => v)                         (* normalize *)
    ref_reflect
    (fun v => v)                         (* improve_normalization *)
    (fun _ => tt)                        (* get_shading_basis *)
    (fun _ => [])                        (* osl_mem_alloc *)
    (fun _ _ tree => tree)               (* new_CompositeSurfaceClosure *)
    (fun c => length c)                  (* get_num_closures *)
    (fun c i => fst (nth i c (0, 0)))    (* get_closure_type *)
    (fun c i => snd (nth i c (0, 0)))    (* get_closure_input_values *)
    tree_set                             (* set_closure_input_values *)
    (fun cid _ v => v + cid)             (* inject_layered_closure_values *)
    100.                                 (* FirstLayeredClosure *)

(** The substrate's medium of the reference instantiation. *)
Definition ref_medium : SubstrateMedium ref_types :=
  Build_SubstrateMedium ref_types
    (fun _ ctx _ => (S ctx, fadd f1 fhalf))
    (fun _ _ distance absorption => map (fun c => fmul c distance) absorption).

(** ** Notions for the rounding proofs *)

(** The state of a right shift: [M = m * P + rho], with the two sticky
    bits locating [rho] against [P / 2]. *)
Definition shr_inv (M P : Z) (r : shr_record) : Prop :=
  0 <= shr_m r /\
  exists rho, M = shr_m r * P + rho /\ 0 <= rho < P /\
    match shr_r r, shr_s r with
    | false, false => rho = 0
    | false, true => 0 < 2 * rho < P
    | true, false => 2 * rho = P
    | true, true => P < 2 * rho
    end.

(** The float with sign [s] and magnitude [k * 2^e], for [k <= 2^24]. *)
Definition encode (s : bool) (k e : Z) : float :=
  match k with
  | Z0 => S754_zero s
  | Zpos p =>
      if k <? 16777216 then S754_finite s p e
      else S754_finite s 8388608 (e + 1)
  | Zneg _ => S754_nan
  end.

(** [Mag x n]: [x] is zero or a well-formed finite float of magnitude [n],
    counted in units of [2^-149] (the least subnormal). *)
Definition Mag (x : float) (n : Z) : Prop :=
  match x with
  | S754_zero _ => n = 0
  | S754_finite _ m e =>
      bounded prec32 emax32 m e = true /\ n = Zpos m * 2 ^ (e + 149)
  | _ => False
  end.

(** The sign bit. *)
Definition fsign (x : float) : bool :=
  match x with
  | S754_zero s | S754_infinity s | S754_finite s _ _ => s
  | S754_nan => false
  end.

(** [Rnd U v s r]: the float [r] has sign [s] and is the rounding of the
    magnitude [v], given in units of [2^-U]. *)
Definition Rnd (U v : Z) (s : bool) (r : float) : Prop :=
  exists k e,
    -149 <= e <= 103
    /\ 0 <= k <= 16777216
    /\ (k = 0 \/ e = -149 \/ 8388608 <= k)
    /\ r = encode s k e
    /\ - 2 ^ (e + U) <= 2 * (k * 2 ^ (e + U) - v) <= 2 ^ (e + U)
    /\ (e = -149 \/ 2 ^ (e + 23 + U) <= v)
    /\ v < 2 ^ (e + 24 + U).

(** A well-formed float in [0,1] with a clear sign bit. *)
Definition Unit01 (x : float) : Prop :=
  fsign x = false /\ exists n, Mag x n /\ n <= 2 ^ 149.

(** A well-formed float in (0,1]. *)
Definition UnitPos (x : float) : Prop :=
  fsign x = false /\ exists n, Mag x n /\ 0 < n <= 2 ^ 149.

(* ================================================================= *)
(** * Part II: single-precision facts *)
(* ================================================================= *)

(** ** Comparisons *)

Lemma SFcompare_antisym (x y : float) :
  SFcompare y x = option_map CompOpp (SFcompare x y).
Proof.
  destruct x as [sx|sx| |sx mx ex], y as [sy|sy| |sy my ey]; simpl;
    try destruct sx; try destruct sy; try reflexivity.
  - rewrite (Z.compare_antisym ex ey).
    destruct (ex ?= ey); simpl; try reflexivity.
    now rewrite (Pos.compare_cont_antisym mx my Eq).
  - rewrite (Z.compare_antisym ex ey).
    destruct (ex ?= ey); simpl; try reflexivity.
    now rewrite (Pos.compare_cont_antisym mx my Eq).
Qed.

Lemma flt_not_feq (x y : float) : flt x y = true -> feq x y = false.
Proof. unfold flt, feq, SFltb, SFeqb. now destruct (SFcompare x y) as [[]|]. Qed.

Lemma flt_asym (x y : float) : flt x y = true -> flt y x = false.
Proof.
  unfold flt, SFltb. rewrite (SFcompare_antisym x y).
  now destruct (SFcompare x y) as [[]|].
Qed.

Lemma feq_sym (x y : float) : feq x y = feq y x.
Proof.
  unfold feq, SFeqb. rewrite (SFcompare_antisym x y).
  now destruct (SFcompare x y) as [[]|].
Qed.

Lemma SFcompare_None (x y : float) :
  SFcompare x y = None -> is_nan x = true \/ is_nan y = true.
Proof. destruct x, y; simpl; auto; discriminate. Qed.

(** Without a NaN, [not (x < y)] is [y <= x]. *)
Lemma not_flt_fle (x y : float) :
  is_nan x = false -> is_nan y = false -> flt x y = false -> fle y x = true.
Proof.
  intros Hx Hy. unfold flt, fle, SFltb, SFleb. rewrite (SFcompare_antisym x y).
  destruct (SFcompare x y) as [[]|] eqn:E; simpl; try easy.
  apply SFcompare_None in E. destruct E; congruence.
Qed.

Lemma feq_zero_inv (x : float) : feq x f0 = true -> exists s, x = S754_zero s.
Proof.
  destruct x as [s|s| |s m e]; simpl; try discriminate.
  - intros _. now exists s.
  - now destruct s.
  - now destruct s.
Qed.

Lemma feq_finite_inv (x : float) (m : positive) (e : Z) :
  feq x (S754_finite false m e) = true -> x = S754_finite false m e.
Proof.
  destruct x as [s|s| |s mx ex]; unfold feq, SFeqb; simpl;
    try destruct s; try discriminate.
  destruct (Z.compare_spec ex e) as [Hq|Hq|Hq]; try discriminate.
  destruct (Pos.compare_cont Eq mx m) eqn:Hm; try discriminate.
  apply Pcompare_Eq_eq in Hm. intros _. now subst.
Qed.

(** ** Absolute value and rounding *)

Lemma fabs_binary_round_aux (s : bool) (m e : Z) (l : location) :
  fabs (binary_round_aux prec32 emax32 s m e l)
  = binary_round_aux prec32 emax32 false m e l.
Proof.
  unfold binary_round_aux.
  destruct (shr_fexp prec32 emax32 m e l) as [mrs' e'].
  destruct (shr_fexp prec32 emax32 _ e' loc_Exact) as [mrs'' e''].
  destruct (shr_m mrs''); try reflexivity.
  now destruct (e'' <=? emax32 - prec32).
Qed.

(** [|x * y| = |x| * |y|]: the product is rounded on its magnitude. *)
Lemma fabs_fmul (x y : float) : fabs (fmul x y) = fmul (fabs x) (fabs y).
Proof.
  destruct x as [sx|sx| |sx mx ex], y as [sy|sy| |sy my ey];
    try reflexivity.
  unfold fmul, SFmul. simpl fabs at 2 3. apply fabs_binary_round_aux.
Qed.

(** ** The sign of a product *)

Lemma shr_1_nonneg (r : shr_record) : 0 <= shr_m r -> 0 <= shr_m (shr_1 r).
Proof.
  destruct r as [m rb sb]. cbn [shr_m].
  destruct m as [|[p|p|]|p]; cbn [shr_1 shr_m]; lia.
Qed.

Lemma iter_pos_shr_nonneg (p : positive) (r : shr_record) :
  0 <= shr_m r -> 0 <= shr_m (iter_pos shr_1 p r).
Proof.
  revert r. induction p as [p IH|p IH|]; intros r Hr; simpl iter_pos.
  - apply IH, IH, shr_1_nonneg, Hr.
  - apply IH, IH, Hr.
  - apply shr_1_nonneg, Hr.
Qed.

Lemma shr_fexp_nonneg (m e : Z) (l : location) :
  0 <= m -> 0 <= shr_m (fst (shr_fexp prec32 emax32 m e l)).
Proof.
  intros Hm. unfold shr_fexp, shr.
  assert (H0 : 0 <= shr_m (shr_record_of_loc m l))
    by (destruct l as [|[]]; exact Hm).
  destruct (fexp prec32 emax32 (Zdigits2 m + e) - e); cbn [fst]; try exact H0.
  now apply iter_pos_shr_nonneg.
Qed.

Lemma round_nearest_even_nonneg (m : Z) (l : location) :
  0 <= m -> 0 <= round_nearest_even m l.
Proof.
  intros Hm. destruct l as [|[]]; cbn [round_nearest_even]; try lia.
  destruct (Z.even m); lia.
Qed.

(** A rounded magnitude keeps the sign it is given. *)
Lemma binary_round_aux_sign (s : bool) (m : positive) (e : Z) :
  let r := binary_round_aux prec32 emax32 s (Zpos m) e loc_Exact in
  is_nan r = false /\ fsign r = s.
Proof.
  cbv zeta. unfold binary_round_aux.
  pose proof (shr_fexp_nonneg (Zpos m) e loc_Exact ltac:(lia)) as H1.
  destruct (shr_fexp prec32 emax32 (Zpos m) e loc_Exact) as [mrs' e'].
  cbn [fst] in H1.
  pose proof (round_nearest_even_nonneg (shr_m mrs') (loc_of_shr_record mrs') H1)
    as H2.
  pose proof (shr_fexp_nonneg _ e' loc_Exact H2) as H3.
  destruct (shr_fexp prec32 emax32 _ e' loc_Exact) as [mrs'' e''].
  cbn [fst] in H3.
  destruct (shr_m mrs'') as [|p|p]; [split; reflexivity| |lia].
  destruct (e'' <=? emax32 - prec32); split; reflexivity.
Qed.

(** Finite components of opposite sign, or one of them zero, have a product
    that compares [<= 0]. *)
Lemma product_nonpositive (x y : float) :
  is_finite x = true -> is_finite y = true ->
  (flt x f0 = true /\ flt f0 y = true)
  \/ (flt y f0 = true /\ flt f0 x = true)
  \/ feq x f0 = true \/ feq y f0 = true ->
  fle (fmul x y) f0 = true.
Proof.
  intros Hx Hy Hc.
  destruct x as [sx|sx| |sx mx ex]; try discriminate;
    destruct y as [sy|sy| |sy my ey]; try discriminate;
    try (destruct sx, sy; reflexivity).
  assert (Hs : xorb sx sy = true).
  { destruct sx, sy; try reflexivity; cbn in Hc;
      destruct Hc as [[? ?]|[[? ?]|[?|?]]]; discriminate. }
  unfold fmul, SFmul. rewrite Hs.
  destruct (binary_round_aux_sign true (mx * my) (ex + ey)) as [Hn Hsg].
  destruct (binary_round_aux prec32 emax32 true _ _ loc_Exact) as [s|s| |s m e];
    cbn [fsign is_nan] in *; try discriminate; subst; reflexivity.
Qed.

(** ** The helpers at the end points *)

Lemma lerp_to_one (x : float) : is_finite x = true -> lerp x f1 f1 = f1.
Proof. destruct x as [s|s| |s m e]; try discriminate; reflexivity. Qed.

Lemma square_of_zero_remap (s : bool) :
  square (fsub (fmul f2 (S754_zero s)) f1) = f1.
Proof. now destruct s. Qed.

Lemma square_of_one_remap : square (fsub (fmul f2 f1) f1) = f1.
Proof. reflexivity. Qed.

(** ** [saturate] *)

Lemma saturate_not_below (x : float) : flt (saturate x) f0 = false.
Proof.
  unfold saturate. destruct (flt x f0) eqn:E0; [reflexivity|].
  destruct (flt f1 x) eqn:E1; [reflexivity|exact E0].
Qed.

Lemma saturate_not_above (x : float) : flt f1 (saturate x) = false.
Proof.
  unfold saturate. destruct (flt x f0) eqn:E0; [reflexivity|].
  destruct (flt f1 x) eqn:E1; [reflexivity|exact E1].
Qed.

Lemma saturate_is_nan (x : float) : is_nan (saturate x) = is_nan x.
Proof.
  unfold saturate. destruct (flt x f0) eqn:E0.
  - destruct x; try discriminate; reflexivity.
  - destruct (flt f1 x) eqn:E1; [|reflexivity].
    destruct x; try discriminate; reflexivity.
Qed.

Lemma saturate_unit (x : float) :
  is_nan x = false -> fle f0 (saturate x) = true /\ fle (saturate x) f1 = true.
Proof.
  intros Hx.
  assert (Hs : is_nan (saturate x) = false) by now rewrite saturate_is_nan.
  split.
  - apply not_flt_fle; auto. apply saturate_not_below.
  - apply not_flt_fle; auto. apply saturate_not_above.
Qed.

(** ** Rounding to single precision *)

Lemma fexp32_eq (e : Z) : fexp prec32 emax32 e = Z.max (e - 24) (-149).
Proof. reflexivity. Qed.

Lemma digits2_pos_bounds (m : positive) :
  2 ^ (Zpos (digits2_pos m) - 1) <= Zpos m < 2 ^ Zpos (digits2_pos m).
Proof.
  induction m as [p IH|p IH|]; simpl digits2_pos;
    [| |simpl; lia];
    rewrite Pos2Z.inj_succ;
    assert (Hd : 1 <= Zpos (digits2_pos p)) by lia;
    set (d := Zpos (digits2_pos p)) in *;
    replace (Z.succ d - 1) with (Z.succ (d - 1)) by lia;
    rewrite !Z.pow_succ_r by lia; lia.
Qed.

Lemma shr_1_inv (M P : Z) (r : shr_record) :
  0 < P -> shr_inv M P r -> shr_inv M (2 * P) (shr_1 r).
Proof.
  intros HP [Hm [rho [HM [Hrho Hloc]]]].
  destruct r as [m rb sb]. cbn [shr_m shr_r shr_s] in *.
  unfold shr_inv.
  destruct m as [|[p|p|]|p]; try lia; cbn [shr_1 shr_m shr_r shr_s];
    (split; [lia|]).
  - exists rho. destruct rb, sb; cbn [orb]; lia.
  - exists (P + rho). destruct rb, sb; cbn [orb]; lia.
  - exists rho. destruct rb, sb; cbn [orb]; lia.
  - exists (P + rho). destruct rb, sb; cbn [orb]; lia.
Qed.

Lemma pow2_xO (p : positive) : 2 ^ Zpos p~0 = 2 ^ Zpos p * 2 ^ Zpos p.
Proof. rewrite <- Z.pow_add_r by lia. f_equal. lia. Qed.

Lemma pow2_xI (p : positive) : 2 ^ Zpos p~1 = 2 ^ Zpos p * 2 ^ Zpos p * 2.
Proof.
  replace (Zpos p~1) with (Zpos p + Zpos p + 1) by lia.
  rewrite !Z.pow_add_r by lia. reflexivity.
Qed.

Lemma pow2_pos (n : Z) : 0 <= n -> 0 < 2 ^ n.
Proof. intros. apply Z.pow_pos_nonneg; lia. Qed.

Lemma iter_pos_shr_inv (p : positive) :
  forall (M P : Z) (r : shr_record),
  0 < P -> shr_inv M P r -> shr_inv M (2 ^ Zpos p * P) (iter_pos shr_1 p r).
Proof.
  induction p as [p IH|p IH|]; intros M P r HP Hr; simpl iter_pos.
  - pose proof (pow2_pos (Zpos p) ltac:(lia)) as Hp.
    replace (2 ^ Zpos p~1 * P) with (2 ^ Zpos p * (2 ^ Zpos p * (2 * P)))
      by (rewrite pow2_xI; ring).
    apply IH; [nia|]. apply IH; [lia|]. now apply shr_1_inv.
  - pose proof (pow2_pos (Zpos p) ltac:(lia)) as Hp.
    replace (2 ^ Zpos p~0 * P) with (2 ^ Zpos p * (2 ^ Zpos p * P))
      by (rewrite pow2_xO; ring).
    apply IH; [nia|]. now apply IH.
  - change (2 ^ 1) with 2. now apply shr_1_inv.
Qed.

Lemma pow2_lt_inv (a b : Z) : 0 <= b -> 2 ^ a < 2 ^ b -> a < b.
Proof.
  intros Hb Hlt. destruct (Z.lt_ge_cases a 0) as [Ha|Ha]; [lia|].
  apply (Z.pow_lt_mono_r_iff 2); lia.
Qed.

Lemma pow2_le_mono (a b : Z) : 0 <= a <= b -> 2 ^ a <= 2 ^ b.
Proof. intros. apply Z.pow_le_mono_r; lia. Qed.

Lemma pow2_split (a b : Z) : 0 <= a -> 0 <= b -> 2 ^ (a + b) = 2 ^ a * 2 ^ b.
Proof. intros. apply Z.pow_add_r; lia. Qed.

Lemma digits_le (m : positive) (j : Z) :
  0 <= j -> Zpos m < 2 ^ j -> Zpos (digits2_pos m) <= j.
Proof.
  intros Hj Hm. pose proof (digits2_pos_bounds m) as [Hlo _].
  assert (Zpos (digits2_pos m) - 1 < j) by (apply pow2_lt_inv; lia). lia.
Qed.

Lemma digits_ge (m : positive) (j : Z) :
  0 <= j -> 2 ^ j <= Zpos m -> j + 1 <= Zpos (digits2_pos m).
Proof.
  intros Hj Hm. pose proof (digits2_pos_bounds m) as [_ Hhi].
  assert (j < Zpos (digits2_pos m)) by (apply pow2_lt_inv; lia). lia.
Qed.

Lemma round_nearest_even_inv (M P : Z) (r : shr_record) :
  0 < P -> shr_inv M P r ->
  let k := round_nearest_even (shr_m r) (loc_of_shr_record r) in
  shr_m r <= k <= shr_m r + 1
  /\ - P <= 2 * (k * P - M) <= P
  /\ (2 * M < P -> k = 0).
Proof.
  intros HP [Hm [rho [HM [Hrho Hloc]]]].
  destruct r as [m rb sb]. cbn [shr_m shr_r shr_s] in *.
  unfold loc_of_shr_record, round_nearest_even.
  destruct rb, sb; try destruct (Z.even m); nia.
Qed.

Lemma shr_fexp_zero (e : Z) :
  -149 <= e ->
  shr_fexp prec32 emax32 0 e loc_Exact = (Build_shr_record 0 false false, e).
Proof.
  intros He. unfold shr_fexp, shr. simpl Zdigits2. rewrite fexp32_eq.
  destruct (Z.max (0 + e - 24) (-149) - e) eqn:E; try reflexivity. lia.
Qed.

Lemma shr_fexp_small (p : positive) (e : Z) :
  -149 <= e -> Zpos p < 16777216 ->
  shr_fexp prec32 emax32 (Zpos p) e loc_Exact
  = (Build_shr_record (Zpos p) false false, e).
Proof.
  intros He Hp. unfold shr_fexp, shr. simpl Zdigits2. rewrite fexp32_eq.
  assert (Zpos (digits2_pos p) <= 24) by (apply digits_le; [lia|exact Hp]).
  destruct (Z.max (Zpos (digits2_pos p) + e - 24) (-149) - e) eqn:E;
    try reflexivity. lia.
Qed.

Lemma shr_fexp_carry (e : Z) :
  -149 <= e ->
  shr_fexp prec32 emax32 16777216 e loc_Exact
  = (Build_shr_record 8388608 false false, e + 1).
Proof.
  intros He. unfold shr_fexp, shr. simpl Zdigits2. rewrite fexp32_eq.
  replace (Z.max (25 + e - 24) (-149) - e) with 1 by lia. reflexivity.
Qed.

Lemma binary_round_aux_encode (s : bool) (k e : Z) :
  0 <= k <= 16777216 -> -149 <= e <= 103 ->
  (let '(mrs, e2) := shr_fexp prec32 emax32 k e loc_Exact in
   match shr_m mrs with
   | Z0 => S754_zero s
   | Zpos m => if e2 <=? emax32 - prec32 then S754_finite s m e2
               else S754_infinity s
   | Zneg _ => S754_nan
   end) = encode s k e.
Proof.
  intros Hk He. destruct k as [|p|p]; [| |lia].
  - now rewrite shr_fexp_zero by lia.
  - unfold encode. destruct (Z.ltb_spec (Zpos p) 16777216) as [Hlt|Hge].
    + rewrite shr_fexp_small by lia. cbn [shr_m].
      destruct (Z.leb_spec e (emax32 - prec32)); [reflexivity|].
      unfold emax32, prec32 in *. lia.
    + assert (Zpos p = 16777216) as -> by lia.
      rewrite shr_fexp_carry by lia. cbn [shr_m].
      destruct (Z.leb_spec (e + 1) (emax32 - prec32)); [reflexivity|].
      unfold emax32, prec32 in *. lia.
Qed.

(** Rounding [mx * 2^ex] to the grid of exponent [e' = fexp (digits + ex)]:
    the result is [k * 2^e'], with [k * 2^(e' - ex)] within half a grid step
    of [mx]. *)
Lemma binary_round_aux_spec (s : bool) (mx : positive) (ex : Z) :
  let e' := fexp prec32 emax32 (Zpos (digits2_pos mx) + ex) in
  ex <= e' -> e' <= 103 ->
  exists k,
    0 <= k <= 16777216
    /\ (k = 0 \/ e' = -149 \/ 8388608 <= k)
    /\ - 2 ^ (e' - ex) <= 2 * (k * 2 ^ (e' - ex) - Zpos mx) <= 2 ^ (e' - ex)
    /\ binary_round_aux prec32 emax32 s (Zpos mx) ex loc_Exact = encode s k e'.
Proof.
  intros e' Hshift Hmax.
  pose proof (digits2_pos_bounds mx) as [Hdlo Hdhi].
  set (d := Zpos (digits2_pos mx)) in *.
  assert (He' : e' = Z.max (d + ex - 24) (-149)) by reflexivity.
  unfold binary_round_aux.
  unfold shr_fexp at 1. simpl Zdigits2. fold d. fold e'.
  cbn [shr_record_of_loc]. unfold shr.
  destruct (e' - ex) as [|n|n] eqn:En; [| |lia].
  - (* no shift: the mantissa is kept *)
    assert (Hd : d <= 24) by lia.
    assert (HmLt : Zpos mx < 16777216).
    { assert (2 ^ d <= 2 ^ 24) by (apply pow2_le_mono; lia).
      change (2 ^ 24) with 16777216 in *. lia. }
    exists (Zpos mx). cbn [shr_m loc_of_shr_record round_nearest_even].
    replace ex with e' by lia.
    rewrite binary_round_aux_encode by lia.
    repeat split; try lia.
    destruct (Z.eq_dec e' (-149)) as [|Hne]; [auto|].
    right; right. assert (d = 24) as Hd24 by lia. rewrite Hd24 in Hdlo.
    change (2 ^ (24 - 1)) with 8388608 in Hdlo. exact Hdlo.
  - (* a right shift by [n] *)
    assert (Hinv : shr_inv (Zpos mx) (2 ^ Zpos n * 1)
                     (iter_pos shr_1 n (Build_shr_record (Zpos mx) false false))).
    { apply iter_pos_shr_inv; [lia|]. split; [cbn; lia|].
      exists 0. cbn. lia. }
    rewrite Z.mul_1_r in Hinv.
    set (rec := iter_pos shr_1 n _) in *.
    pose proof (pow2_pos (Zpos n) ltac:(lia)) as HP.
    pose proof (round_nearest_even_inv _ _ _ HP Hinv) as [Hk1 [Hk2 Hk3]].
    set (k := round_nearest_even (shr_m rec) (loc_of_shr_record rec)) in *.
    destruct Hinv as [Hm0 [rho [HM [Hrho _]]]].
    replace (ex + Zpos n) with e' by lia.
    (* the shifted mantissa has at most 24 digits *)
    assert (Hk24 : k <= 16777216 /\ (k = 0 \/ e' = -149 \/ 8388608 <= k)).
    { destruct (Z.le_gt_cases (Zpos n) d) as [Hnd|Hnd].
      - assert (Hsplit : 2 ^ d = 2 ^ (d - Zpos n) * 2 ^ Zpos n).
        { rewrite <- pow2_split by lia. f_equal. lia. }
        assert (Hm' : shr_m rec < 2 ^ (d - Zpos n)) by nia.
        assert (2 ^ (d - Zpos n) <= 2 ^ 24) by (apply pow2_le_mono; lia).
        change (2 ^ 24) with 16777216 in *.
        split; [lia|].
        destruct (Z.eq_dec e' (-149)) as [|Hne]; [auto|].
        right; right.
        assert (Hn : Zpos n = d - 24) by lia.
        assert (Hlo2 : 2 ^ (d - 1) = 8388608 * 2 ^ Zpos n).
        { change 8388608 with (2 ^ 23). rewrite <- pow2_split by lia.
          f_equal. lia. }
        nia.
      - assert (2 ^ d <= 2 ^ (Zpos n - 1)) by (apply pow2_le_mono; lia).
        assert (2 ^ Zpos n = 2 * 2 ^ (Zpos n - 1)).
        { replace (Zpos n) with (1 + (Zpos n - 1)) at 1 by lia.
          rewrite pow2_split by lia. reflexivity. }
        assert (k = 0) by (apply Hk3; lia). lia. }
    exists k. rewrite binary_round_aux_encode by lia.
    repeat split; try lia; tauto.
Qed.

Lemma iter_xO_value (m d : positive) :
  Zpos (Pos.iter xO m d) = Zpos m * 2 ^ Zpos d.
Proof.
  induction d as [|d IH] using Pos.peano_ind.
  - simpl Pos.iter. change (2 ^ 1) with 2. lia.
  - rewrite Pos.iter_succ, Pos2Z.inj_xO, IH, Pos2Z.inj_succ.
    rewrite Z.pow_succ_r by lia. ring.
Qed.

Lemma iter_xO_digits (m d : positive) :
  Zpos (digits2_pos (Pos.iter xO m d)) = Zpos (digits2_pos m) + Zpos d.
Proof.
  induction d as [|d IH] using Pos.peano_ind.
  - simpl. lia.
  - rewrite Pos.iter_succ. simpl digits2_pos. rewrite Pos2Z.inj_succ, IH. lia.
Qed.

(** ** Well-formed mantissas *)

Lemma bounded_inv (m : positive) (e : Z) :
  bounded prec32 emax32 m e = true ->
  -149 <= e <= 104 /\ Zpos m < 16777216 /\ (e = -149 \/ 8388608 <= Zpos m).
Proof.
  unfold bounded, canonical_mantissa. rewrite fexp32_eq.
  intros Hb. apply andb_true_iff in Hb as [Hc He].
  apply Z.eqb_eq in Hc. apply Z.leb_le in He.
  unfold emax32, prec32 in He.
  pose proof (digits2_pos_bounds m) as [Hlo Hhi].
  set (d := Zpos (digits2_pos m)) in *.
  assert (Hd : d <= 24) by lia.
  assert (2 ^ d <= 2 ^ 24) by (apply pow2_le_mono; lia).
  change (2 ^ 24) with 16777216 in *.
  repeat split; try lia.
  destruct (Z.eq_dec e (-149)); [auto|right].
  assert (d = 24) as Hd24 by lia. rewrite Hd24 in Hlo.
  exact Hlo.
Qed.

Lemma bounded_intro (m : positive) (e : Z) :
  Zpos m < 16777216 -> -149 <= e <= 104 -> (e = -149 \/ 8388608 <= Zpos m) ->
  bounded prec32 emax32 m e = true.
Proof.
  intros Hm He Hc. unfold bounded, canonical_mantissa. rewrite fexp32_eq.
  apply andb_true_iff. split; [|apply Z.leb_le; unfold emax32, prec32; lia].
  apply Z.eqb_eq.
  assert (Hd : Zpos (digits2_pos m) <= 24) by (apply digits_le; [lia|exact Hm]).
  destruct Hc as [->|Hc]; [lia|].
  assert (23 + 1 <= Zpos (digits2_pos m)) by (apply digits_ge; [lia|exact Hc]).
  lia.
Qed.

(** ** Magnitudes, in units of [2^-149] *)

Lemma encode_Mag (s : bool) (k e : Z) :
  -149 <= e <= 103 -> 0 <= k <= 16777216 ->
  (k = 0 \/ e = -149 \/ 8388608 <= k) ->
  Mag (encode s k e) (k * 2 ^ (e + 149)) /\ fsign (encode s k e) = s.
Proof.
  intros He Hk Hc. destruct k as [|p|p]; [| |lia].
  - split; reflexivity.
  - unfold encode. destruct (Z.ltb_spec (Zpos p) 16777216) as [Hlt|Hge].
    + split; [|reflexivity]. split; [|reflexivity].
      apply bounded_intro; lia.
    + assert (Zpos p = 16777216) as -> by lia.
      split; [|reflexivity]. split; [apply bounded_intro; lia|].
      replace (e + 1 + 149) with (1 + (e + 149)) by lia.
      rewrite (pow2_split 1 (e + 149)) by lia. change (2 ^ 1) with 2. lia.
Qed.

Lemma binary_round_aux_Rnd (s : bool) (mx : positive) (ex U : Z) :
  let e' := fexp prec32 emax32 (Zpos (digits2_pos mx) + ex) in
  0 <= ex + U -> ex <= e' -> e' <= 103 ->
  Rnd U (Zpos mx * 2 ^ (ex + U)) s
    (binary_round_aux prec32 emax32 s (Zpos mx) ex loc_Exact).
Proof.
  intros e' HU Hshift Hmax.
  destruct (binary_round_aux_spec s mx ex Hshift Hmax)
    as [k [Hk [Hc [Hnear Heq]]]].
  fold e' in Hnear, Heq, Hc.
  pose proof (digits2_pos_bounds mx) as [Hdlo Hdhi].
  set (d := Zpos (digits2_pos mx)) in *.
  assert (He' : e' = Z.max (d + ex - 24) (-149)) by reflexivity.
  assert (Hd1 : 1 <= d) by (unfold d; lia).
  pose proof (pow2_pos (ex + U) HU) as HQ.
  pose proof (pow2_pos (e' - ex) ltac:(lia)) as HP.
  assert (Hgrid : 2 ^ (e' + U) = 2 ^ (e' - ex) * 2 ^ (ex + U)).
  { rewrite <- pow2_split by lia. f_equal. lia. }
  exists k, e'. repeat split; try lia; try exact Hc; try exact Heq.
  - rewrite Hgrid. nia.
  - rewrite Hgrid. nia.
  - destruct (Z.eq_dec e' (-149)); [auto|right].
    replace (e' + 23 + U) with ((d - 1) + (ex + U)) by lia.
    rewrite pow2_split by lia. nia.
  - assert (2 ^ (d + (ex + U)) <= 2 ^ (e' + 24 + U))
      by (apply pow2_le_mono; lia).
    rewrite pow2_split in * by lia. nia.
Qed.

Lemma binary_round_Rnd (s : bool) (m : positive) (e U : Z) :
  0 <= e + U -> 149 <= U ->
  fexp prec32 emax32 (Zpos (digits2_pos m) + e) <= 103 ->
  Rnd U (Zpos m * 2 ^ (e + U)) s (binary_round prec32 emax32 s m e).
Proof.
  intros HU HU149 Hmax. unfold binary_round, shl_align.
  set (e' := fexp prec32 emax32 (Zpos (digits2_pos m) + e)) in *.
  assert (He' : e' = Z.max (Zpos (digits2_pos m) + e - 24) (-149))
    by reflexivity.
  destruct (e' - e) as [|n|n] eqn:En.
  - apply binary_round_aux_Rnd; fold e'; lia.
  - apply binary_round_aux_Rnd; fold e'; lia.
  - assert (Hv : Zpos m * 2 ^ (e + U)
                 = Zpos (Pos.iter xO m n) * 2 ^ (e' + U)).
    { rewrite iter_xO_value.
      replace (e + U) with (Zpos n + (e' + U)) by lia.
      rewrite pow2_split by lia. ring. }
    rewrite Hv.
    assert (Hfe : fexp prec32 emax32 (Zpos (digits2_pos (Pos.iter xO m n)) + e')
                  = e').
    { rewrite iter_xO_digits. rewrite fexp32_eq. lia. }
    apply binary_round_aux_Rnd; rewrite ?Hfe; lia.
Qed.

Lemma Rnd_Mag (U v : Z) (s : bool) (r : float) :
  Rnd U v s r -> exists n, Mag r n /\ fsign r = s.
Proof.
  intros [k [e [He [Hk [Hc [-> _]]]]]].
  exists (k * 2 ^ (e + 149)). now apply encode_Mag.
Qed.

Lemma Mag_inj (x : float) (n n' : Z) : Mag x n -> Mag x n' -> n = n'.
Proof.
  destruct x; cbn [Mag]; try tauto; [congruence|].
  intros [_ ->] [_ ->]. reflexivity.
Qed.

Lemma Mag_nonneg (x : float) (n : Z) : Mag x n -> 0 <= n.
Proof.
  destruct x as [s|s| |s m e]; cbn [Mag]; try tauto; [lia|].
  intros [Hb ->]. apply bounded_inv in Hb.
  pose proof (pow2_pos (e + 149) ltac:(lia)). nia.
Qed.

(** Comparison of well-formed positive floats is comparison of magnitudes. *)
Lemma SFcompare_pos (m1 : positive) (e1 : Z) (m2 : positive) (e2 : Z) :
  bounded prec32 emax32 m1 e1 = true -> bounded prec32 emax32 m2 e2 = true ->
  SFcompare (S754_finite false m1 e1) (S754_finite false m2 e2)
  = Some (Zpos m1 * 2 ^ (e1 + 149) ?= Zpos m2 * 2 ^ (e2 + 149)).
Proof.
  intros H1 H2. apply bounded_inv in H1, H2.
  pose proof (pow2_pos (e1 + 149) ltac:(lia)) as HX1.
  pose proof (pow2_pos (e2 + 149) ltac:(lia)) as HX2.
  unfold SFcompare. f_equal. destruct (Z.compare_spec e1 e2) as [Heq|Hlt|Hgt].
  - subst e2. rewrite <- Zmult_compare_compat_r by lia. reflexivity.
  - symmetry. apply Z.compare_lt_iff.
    assert (Hs : 2 ^ (e2 + 149) = 2 ^ (e2 - e1) * 2 ^ (e1 + 149)).
    { rewrite <- pow2_split by lia. f_equal. lia. }
    assert (2 ^ 1 <= 2 ^ (e2 - e1)) by (apply pow2_le_mono; lia).
    change (2 ^ 1) with 2 in *. nia.
  - symmetry. apply Z.compare_gt_iff.
    assert (Hs : 2 ^ (e1 + 149) = 2 ^ (e1 - e2) * 2 ^ (e2 + 149)).
    { rewrite <- pow2_split by lia. f_equal. lia. }
    assert (2 ^ 1 <= 2 ^ (e1 - e2)) by (apply pow2_le_mono; lia).
    change (2 ^ 1) with 2 in *. nia.
Qed.

(** ** Bounds on a rounded value *)

(** Rounding never crosses a representable number. *)
Lemma Rnd_upper (U v : Z) (s : bool) (r : float) (mb : positive) (eb : Z) :
  149 <= U -> Rnd U v s r ->
  bounded prec32 emax32 mb eb = true ->
  v <= Zpos mb * 2 ^ (eb + U) ->
  exists n, Mag r n /\ fsign r = s /\ n <= Zpos mb * 2 ^ (eb + 149).
Proof.
  intros HU [k [e [He [Hk [Hc [-> [Hnear [Hlo Hhi]]]]]]]] Hb Hv.
  apply bounded_inv in Hb. destruct Hb as [Heb [Hmb Hcb]].
  destruct (encode_Mag s k e He Hk Hc) as [HM Hs].
  exists (k * 2 ^ (e + 149)). split; [exact HM|]. split; [exact Hs|].
  pose proof (pow2_pos (e + U) ltac:(lia)) as HG.
  pose proof (pow2_pos (eb + U) ltac:(lia)) as HGb.
  assert (Hee : e <= eb).
  { destruct Hlo as [->|Hlo]; [lia|].
    assert (2 ^ (e + 23 + U) < 2 ^ (eb + 24 + U)).
    { replace (eb + 24 + U) with (24 + (eb + U)) by lia.
      rewrite (pow2_split 24 (eb + U)) by lia.
      change (2 ^ 24) with 16777216. nia. }
    assert (e + 23 + U < eb + 24 + U) by (apply pow2_lt_inv; lia). lia. }
  pose proof (pow2_pos (eb - e) ltac:(lia)) as HD.
  assert (HbG : 2 ^ (eb + U) = 2 ^ (eb - e) * 2 ^ (e + U)).
  { rewrite <- pow2_split by lia. f_equal. lia. }
  assert (Hb149 : 2 ^ (eb + 149) = 2 ^ (eb - e) * 2 ^ (e + 149)).
  { rewrite <- pow2_split by lia. f_equal. lia. }
  pose proof (pow2_pos (e + 149) ltac:(lia)) as HG149.
  assert (Hkb : k <= Zpos mb * 2 ^ (eb - e)) by nia.
  rewrite Hb149. nia.
Qed.

(** A magnitude at most [1 + 2^-25] rounds to at most 1. *)
Lemma Rnd_near_one (v : Z) (s : bool) (r : float) :
  Rnd 149 v s r -> v <= 2 ^ 149 + 2 ^ 124 ->
  exists n, Mag r n /\ fsign r = s /\ n <= 2 ^ 149.
Proof.
  intros [k [e [He [Hk [Hc [-> [Hnear [Hlo Hhi]]]]]]]] Hv.
  destruct (encode_Mag s k e He Hk Hc) as [HM Hs].
  exists (k * 2 ^ (e + 149)). split; [exact HM|]. split; [exact Hs|].
  pose proof (pow2_pos (e + 149) ltac:(lia)) as HG.
  destruct (Z.le_gt_cases e (-23)) as [Hle|Hgt].
  - assert (H1 : 2 ^ 149 = 2 ^ (- e) * 2 ^ (e + 149)).
    { rewrite <- pow2_split by lia. f_equal. lia. }
    pose proof (pow2_pos (- e) ltac:(lia)) as HD.
    assert (Hsmall : 2 * 2 ^ 124 < 2 ^ (e + 149) \/ v <= 2 ^ 149).
    { destruct (Z.eq_dec e (-23)) as [->|Hne].
      - left. simpl. lia.
      - right. assert (2 ^ (e + 24 + 149) <= 2 ^ 149)
          by (apply pow2_le_mono; lia). lia. }
    assert (k <= 2 ^ (- e)) by nia. nia.
  - destruct Hlo as [->|Hlo]; [lia|].
    assert (2 ^ 150 <= 2 ^ (e + 23 + 149)) by (apply pow2_le_mono; lia).
    assert (2 ^ 149 + 2 ^ 124 < 2 ^ 150) by (simpl; lia). lia.
Qed.

(** Below 1 the rounding error is at most [2^-25]. *)
Lemma Rnd_error_below_one (v : Z) (s : bool) (r : float) :
  Rnd 149 v s r -> v < 2 ^ 149 ->
  exists n, Mag r n /\ fsign r = s /\ n <= v + 2 ^ 124.
Proof.
  intros [k [e [He [Hk [Hc [-> [Hnear [Hlo Hhi]]]]]]]] Hv.
  destruct (encode_Mag s k e He Hk Hc) as [HM Hs].
  exists (k * 2 ^ (e + 149)). split; [exact HM|]. split; [exact Hs|].
  assert (Hle : e <= -24).
  { destruct Hlo as [->|Hlo]; [lia|].
    assert (e + 23 + 149 < 149) by (apply pow2_lt_inv; lia). lia. }
  assert (2 ^ (e + 149) <= 2 ^ 125) by (apply pow2_le_mono; lia).
  change (2 ^ 125) with (2 * 2 ^ 124) in *. lia.
Qed.

Lemma pow2_le_inv (a b : Z) : 0 <= b -> 2 ^ a <= 2 ^ b -> a <= b.
Proof.
  intros Hb Hle. destruct (Z.le_gt_cases a b) as [|Hgt]; [assumption|].
  assert (2 ^ b < 2 ^ a) by (apply Z.pow_lt_mono_r; lia). lia.
Qed.

(** A magnitude below [2^k] (in units of [2^-149]) bounds the exponent. *)
Lemma bounded_exponent (m : positive) (e k : Z) :
  bounded prec32 emax32 m e = true -> 0 <= k ->
  Zpos m * 2 ^ (e + 149) <= 2 ^ k -> e <= k - 172 \/ e = -149.
Proof.
  intros Hb Hk Hn. apply bounded_inv in Hb. destruct Hb as [He [Hm Hc]].
  destruct Hc as [->|Hc]; [now right|left].
  pose proof (pow2_pos (e + 149) ltac:(lia)) as HG.
  assert (2 ^ (23 + (e + 149)) <= 2 ^ k).
  { rewrite pow2_split by lia. change (2 ^ 23) with 8388608. nia. }
  assert (23 + (e + 149) <= k) by (apply pow2_le_inv; lia). lia.
Qed.

Lemma shl_align_value (mx : positive) (ex ez : Z) :
  ez <= ex -> Zpos (fst (shl_align mx ex ez)) = Zpos mx * 2 ^ (ex - ez).
Proof.
  intros Hle. unfold shl_align. destruct (ez - ex) as [|d|d] eqn:E.
  - replace (ex - ez) with 0 by lia. cbn [fst]. change (2 ^ 0) with 1. lia.
  - lia.
  - cbn [fst]. rewrite iter_xO_value. f_equal. f_equal. lia.
Qed.

(** ** The operations on well-formed operands *)

Lemma fmul_Rnd (sx : bool) (mx : positive) (ex : Z)
               (sy : bool) (my : positive) (ey : Z) :
  bounded prec32 emax32 mx ex = true -> bounded prec32 emax32 my ey = true ->
  ex <= 0 -> ey <= 0 ->
  Rnd 298 ((Zpos mx * 2 ^ (ex + 149)) * (Zpos my * 2 ^ (ey + 149)))
    (xorb sx sy) (fmul (S754_finite sx mx ex) (S754_finite sy my ey)).
Proof.
  intros Hbx Hby Hex Hey.
  apply bounded_inv in Hbx, Hby.
  destruct Hbx as [Hex' [Hmx Hcx]], Hby as [Hey' [Hmy Hcy]].
  assert (Hv : Zpos mx * 2 ^ (ex + 149) * (Zpos my * 2 ^ (ey + 149))
               = Zpos (mx * my) * 2 ^ (ex + ey + 298)).
  { replace (ex + ey + 298) with ((ex + 149) + (ey + 149)) by lia.
    rewrite (pow2_split (ex + 149) (ey + 149)) by lia.
    rewrite Pos2Z.inj_mul. ring. }
  rewrite Hv. unfold fmul, SFmul.
  assert (Hprod : Zpos (mx * my) < 2 ^ 48).
  { rewrite Pos2Z.inj_mul. change (2 ^ 48) with (16777216 * 16777216). nia. }
  assert (Hd : Zpos (digits2_pos (mx * my)) <= 48)
    by (apply digits_le; [lia|exact Hprod]).
  apply binary_round_aux_Rnd; rewrite ?fexp32_eq; try lia.
  destruct Hcx as [->|Hcx]; [lia|]. destruct Hcy as [->|Hcy]; [lia|].
  assert (46 + 1 <= Zpos (digits2_pos (mx * my))).
  { apply digits_ge; [lia|]. rewrite Pos2Z.inj_mul.
    change (2 ^ 46) with (8388608 * 8388608). nia. }
  lia.
Qed.

Lemma fadd_pos_Rnd (mx : positive) (ex : Z) (my : positive) (ey : Z) :
  bounded prec32 emax32 mx ex = true -> bounded prec32 emax32 my ey = true ->
  Zpos mx * 2 ^ (ex + 149) + Zpos my * 2 ^ (ey + 149) < 2 ^ 152 ->
  Rnd 149 (Zpos mx * 2 ^ (ex + 149) + Zpos my * 2 ^ (ey + 149)) false
    (fadd (S754_finite false mx ex) (S754_finite false my ey)).
Proof.
  intros Hbx Hby Hsum.
  apply bounded_inv in Hbx, Hby.
  destruct Hbx as [Hex [Hmx _]], Hby as [Hey [Hmy _]].
  unfold fadd, SFadd. cbn [cond_Zopp].
  set (ez := Z.min ex ey).
  pose proof (shl_align_value mx ex ez ltac:(lia)) as Ha.
  pose proof (shl_align_value my ey ez ltac:(lia)) as Hb.
  set (a := fst (shl_align mx ex ez)) in *.
  set (b := fst (shl_align my ey ez)) in *.
  change (Zpos a + Zpos b) with (Zpos (a + b)). cbn [binary_normalize].
  assert (Hv : Zpos mx * 2 ^ (ex + 149) + Zpos my * 2 ^ (ey + 149)
               = Zpos (a + b) * 2 ^ (ez + 149)).
  { rewrite Pos2Z.inj_add, Ha, Hb.
    replace (ex + 149) with ((ex - ez) + (ez + 149)) by lia.
    replace (ey + 149) with ((ey - ez) + (ez + 149)) by lia.
    rewrite (pow2_split (ex - ez) (ez + 149)) by lia.
    rewrite (pow2_split (ey - ez) (ez + 149)) by lia. ring. }
  rewrite Hv in *.
  apply binary_round_Rnd; try lia.
  pose proof (digits2_pos_bounds (a + b)) as [Hlo _].
  set (d := Zpos (digits2_pos (a + b))) in *.
  assert (1 <= d) by (unfold d; lia).
  pose proof (pow2_pos (ez + 149) ltac:(lia)) as HG.
  assert (2 ^ ((d - 1) + (ez + 149)) < 2 ^ 152).
  { rewrite pow2_split by lia. nia. }
  assert ((d - 1) + (ez + 149) < 152) by (apply pow2_lt_inv; lia).
  rewrite fexp32_eq. lia.
Qed.

Lemma fsub_pos_cases (mx : positive) (ex : Z) (my : positive) (ey : Z) :
  bounded prec32 emax32 mx ex = true -> bounded prec32 emax32 my ey = true ->
  Zpos mx * 2 ^ (ex + 149) < 2 ^ 152 -> Zpos my * 2 ^ (ey + 149) < 2 ^ 152 ->
  let v := Zpos mx * 2 ^ (ex + 149) - Zpos my * 2 ^ (ey + 149) in
  let r := fsub (S754_finite false mx ex) (S754_finite false my ey) in
  (v = 0 /\ r = S754_zero false)
  \/ (0 < v /\ Rnd 149 v false r)
  \/ (v < 0 /\ Rnd 149 (- v) true r).
Proof.
  intros Hbx Hby Hnx Hny v r.
  apply bounded_inv in Hbx, Hby.
  destruct Hbx as [Hex [Hmx _]], Hby as [Hey [Hmy _]].
  unfold r, fsub, SFsub. cbn [cond_Zopp].
  set (ez := Z.min ex ey).
  pose proof (shl_align_value mx ex ez ltac:(lia)) as Ha.
  pose proof (shl_align_value my ey ez ltac:(lia)) as Hb.
  set (a := fst (shl_align mx ex ez)) in *.
  set (b := fst (shl_align my ey ez)) in *.
  pose proof (pow2_pos (ez + 149) ltac:(lia)) as HG.
  assert (Hv : v = (Zpos a - Zpos b) * 2 ^ (ez + 149)).
  { unfold v. rewrite Ha, Hb.
    replace (ex + 149) with ((ex - ez) + (ez + 149)) by lia.
    replace (ey + 149) with ((ey - ez) + (ez + 149)) by lia.
    rewrite (pow2_split (ex - ez) (ez + 149)) by lia.
    rewrite (pow2_split (ey - ez) (ez + 149)) by lia. ring. }
  assert (Hround : forall (s : bool) (p : positive),
             Zpos p * 2 ^ (ez + 149) < 2 ^ 152 ->
             Rnd 149 (Zpos p * 2 ^ (ez + 149)) s
               (binary_round prec32 emax32 s p ez)).
  { intros s p Hp. apply binary_round_Rnd; try lia.
    pose proof (digits2_pos_bounds p) as [Hlo _].
    set (d := Zpos (digits2_pos p)) in *.
    assert (1 <= d) by (unfold d; lia).
    assert (2 ^ ((d - 1) + (ez + 149)) < 2 ^ 152).
    { rewrite pow2_split by lia. nia. }
    assert ((d - 1) + (ez + 149) < 152) by (apply pow2_lt_inv; lia).
    rewrite fexp32_eq. lia. }
  pose proof (pow2_pos (ex + 149) ltac:(lia)) as HGx.
  pose proof (pow2_pos (ey + 149) ltac:(lia)) as HGy.
  destruct (Zpos a - Zpos b) as [|p|p] eqn:E; cbn [binary_normalize].
  - left. split; [lia|reflexivity].
  - right; left. rewrite Hv. split; [nia|]. apply Hround. unfold v in Hv. nia.
  - right; right. split; [nia|].
    replace (- v) with (Zpos p * 2 ^ (ez + 149)) by (rewrite Hv; lia).
    apply Hround. unfold v in Hv. nia.
Qed.

Lemma pow2_consts :
  0 < 2 ^ 124 /\ 2 ^ 149 = 33554432 * 2 ^ 124 /\ 2 ^ 150 = 2 * 2 ^ 149
  /\ 2 ^ 152 = 8 * 2 ^ 149.
Proof. repeat split. Qed.

Ltac pow2_facts :=
  let H := fresh "Hpow" in
  pose proof pow2_consts as H; destruct H as (? & ? & ? & ?).

Lemma Mag_f1 : Mag f1 (2 ^ 149).
Proof. split; reflexivity. Qed.

Lemma Mag_f2 : Mag f2 (2 ^ 150).
Proof. split; reflexivity. Qed.

(** A product with a factor at most 1 does not exceed the other factor. *)
Lemma fmul_le_left (x y : float) (nx ny : Z) :
  Mag x nx -> Mag y ny -> nx <= 2 ^ 150 -> ny <= 2 ^ 149 ->
  exists n, Mag (fmul x y) n /\ n <= nx
            /\ fsign (fmul x y) = xorb (fsign x) (fsign y).
Proof.
  intros Hx Hy Hnx Hny. pose proof (Mag_nonneg _ _ Hx) as Hx0.
  destruct x as [sx|sx| |sx mx ex]; cbn [Mag] in Hx; try tauto;
    destruct y as [sy|sy| |sy my ey]; cbn [Mag] in Hy; try tauto.
  - exists 0. repeat split; lia.
  - exists 0. repeat split; lia.
  - exists 0. repeat split; lia.
  - destruct Hx as [Hbx ->], Hy as [Hby ->].
    assert (Hex : ex <= 0).
    { destruct (bounded_exponent mx ex 150 Hbx ltac:(lia) Hnx); lia. }
    assert (Hey : ey <= 0).
    { destruct (bounded_exponent my ey 149 Hby ltac:(lia) Hny); lia. }
    pose proof (fmul_Rnd sx mx ex sy my ey Hbx Hby Hex Hey) as HR.
    destruct (Rnd_upper 298 _ _ _ mx ex ltac:(lia) HR Hbx) as [n [Hn [Hs Hle]]].
    + pose proof (bounded_inv _ _ Hbx) as [He _].
      replace (ex + 298) with ((ex + 149) + 149) by lia.
      rewrite (pow2_split (ex + 149) 149) by lia.
      pose proof (pow2_pos (ex + 149) ltac:(lia)). nia.
    + exists n. repeat split; assumption.
Qed.

(** [1 - t] for [t] in [0,1]: in [0,1], and within [2^-25] of the exact
    difference. *)
Lemma fsub_one (t : float) (nt : Z) :
  Mag t nt -> fsign t = false -> nt <= 2 ^ 149 ->
  exists n, Mag (fsub f1 t) n /\ fsign (fsub f1 t) = false
            /\ n <= 2 ^ 149 /\ n + nt <= 2 ^ 149 + 2 ^ 124.
Proof.
  intros Ht Hs Hnt. pose proof (Mag_nonneg _ _ Ht) as Ht0.
  destruct t as [s|s| |s m e]; cbn [Mag] in Ht; try tauto.
  - subst nt. exists (2 ^ 149). pow2_facts. repeat split; lia.
  - destruct Ht as [Hb ->]. cbn [fsign] in Hs. subst s.
    assert (H1 : bounded prec32 emax32 8388608 (-23) = true) by reflexivity.
    assert (Hone : 8388608 * 2 ^ (-23 + 149) < 2 ^ 152) by (simpl; lia).
    assert (Hm : Zpos m * 2 ^ (e + 149) < 2 ^ 152).
    { assert (2 ^ 149 < 2 ^ 152) by (simpl; lia). lia. }
    assert (Hpos : 0 < Zpos m * 2 ^ (e + 149)).
    { pose proof (bounded_inv _ _ Hb) as [He _].
      pose proof (pow2_pos (e + 149) ltac:(lia)). nia. }
    destruct (fsub_pos_cases 8388608 (-23) m e H1 Hb Hone Hm)
      as [[Hv Hr]|[[Hv Hr]|[Hv Hr]]]; fold f1 in Hr;
      change (8388608 * 2 ^ (-23 + 149)) with (2 ^ 149) in Hv, Hr.
    + rewrite Hr. exists 0. pow2_facts. repeat split; lia.
    + destruct (Rnd_upper 149 _ _ _ 8388608 (-23) ltac:(lia) Hr H1)
        as [n [Hn [Hsn Hle]]].
      { change (8388608 * 2 ^ (-23 + 149)) with (2 ^ 149). lia. }
      change (8388608 * 2 ^ (-23 + 149)) with (2 ^ 149) in Hle.
      destruct (Rnd_error_below_one _ _ _ Hr ltac:(lia)) as [n' [Hn' [_ Hle']]].
      rewrite (Mag_inj _ _ _ Hn' Hn) in Hle'.
      exists n. repeat split; try assumption. lia.
    + lia.
Qed.

(** [x - 1] for [x] in [0,2] has magnitude at most 1. *)
Lemma fsub_from_one (x : float) (nx : Z) :
  Mag x nx -> fsign x = false -> nx <= 2 ^ 150 ->
  exists n, Mag (fsub x f1) n /\ n <= 2 ^ 149.
Proof.
  intros Hx Hs Hnx.
  destruct x as [s|s| |s m e]; cbn [Mag] in Hx; try tauto.
  - exists (2 ^ 149). split; [split; reflexivity|lia].
  - destruct Hx as [Hb ->]. cbn [fsign] in Hs. subst s.
    assert (H1 : bounded prec32 emax32 8388608 (-23) = true) by reflexivity.
    assert (Hone : 8388608 * 2 ^ (-23 + 149) < 2 ^ 152) by (simpl; lia).
    assert (Hm : Zpos m * 2 ^ (e + 149) < 2 ^ 152).
    { assert (2 ^ 150 < 2 ^ 152) by (simpl; lia). lia. }
    destruct (fsub_pos_cases m e 8388608 (-23) Hb H1 Hm Hone)
      as [[Hv Hr]|[[Hv Hr]|[Hv Hr]]]; fold f1 in Hr;
      change (8388608 * 2 ^ (-23 + 149)) with (2 ^ 149) in Hv, Hr.
    + rewrite Hr. exists 0. pow2_facts. split; [reflexivity|lia].
    + destruct (Rnd_upper 149 _ _ _ 8388608 (-23) ltac:(lia) Hr H1)
        as [n [Hn [_ Hle]]].
      { change (8388608 * 2 ^ (-23 + 149)) with (2 ^ 149).
        change (2 ^ 150) with (2 * 2 ^ 149) in Hnx. lia. }
      exists n. split; [exact Hn|exact Hle].
    + destruct (Rnd_upper 149 _ _ _ 8388608 (-23) ltac:(lia) Hr H1)
        as [n [Hn [_ Hle]]].
      { change (8388608 * 2 ^ (-23 + 149)) with (2 ^ 149).
        pose proof (bounded_inv _ _ Hb) as [He _].
        pose proof (pow2_pos (e + 149) ltac:(lia)). nia. }
      exists n. split; [exact Hn|exact Hle].
Qed.

(** A sum of non-negative terms that is at most [1 + 2^-25] before
    rounding is at most 1 after it. *)
Lemma fadd_near_one (p q : float) (np nq : Z) :
  Mag p np -> fsign p = false -> Mag q nq -> fsign q = false ->
  np <= 2 ^ 149 -> nq <= 2 ^ 149 -> np + nq <= 2 ^ 149 + 2 ^ 124 ->
  exists n, Mag (fadd p q) n /\ fsign (fadd p q) = false /\ n <= 2 ^ 149.
Proof.
  intros Hp Hsp Hq Hsq Hnp Hnq Hsum.
  destruct p as [sp|sp| |sp mp ep]; cbn [Mag] in Hp; try tauto;
    destruct q as [sq|sq| |sq mq eq]; cbn [Mag] in Hq; try tauto;
    cbn [fsign] in Hsp, Hsq; subst.
  - exists 0. pow2_facts. repeat split; lia.
  - exists (Zpos mq * 2 ^ (eq + 149)). unfold fadd, SFadd. cbn [Mag fsign].
    destruct Hq as [Hbq ->]. repeat split; [exact Hbq|exact Hnq].
  - exists (Zpos mp * 2 ^ (ep + 149)). unfold fadd, SFadd. cbn [Mag fsign].
    destruct Hp as [Hbp ->]. repeat split; [exact Hbp|exact Hnp].
  - destruct Hp as [Hbp ->], Hq as [Hbq ->].
    assert (H152 : 2 ^ 149 + 2 ^ 124 < 2 ^ 152) by (simpl; lia).
    pose proof (fadd_pos_Rnd mp ep mq eq Hbp Hbq ltac:(lia)) as HR.
    apply (Rnd_near_one _ _ _ HR Hsum).
Qed.

Lemma Unit01_f1 : Unit01 f1.
Proof. split; [reflexivity|]. exists (2 ^ 149). split; [apply Mag_f1|lia]. Qed.

Lemma Unit01_fle (x : float) :
  Unit01 x -> fle f0 x = true /\ fle x f1 = true.
Proof.
  intros [Hs [n [Hn Hle]]].
  destruct x as [s|s| |s m e]; cbn [Mag] in Hn; try contradiction;
    cbn [fsign] in Hs; subst s.
  - split; reflexivity.
  - destruct Hn as [Hb ->]. split; [reflexivity|].
    unfold fle, SFleb, f1.
    rewrite (SFcompare_pos m e 8388608 (-23) Hb eq_refl).
    change (8388608 * 2 ^ (-23 + 149)) with (2 ^ 149).
    destruct (Z.compare_spec (Zpos m * 2 ^ (e + 149)) (2 ^ 149));
      try reflexivity. lia.
Qed.

Lemma Unit01_finite (x : float) : Unit01 x -> is_finite x = true.
Proof.
  intros [_ [n [Hn _]]].
  destruct x; cbn [Mag] in Hn; try contradiction; reflexivity.
Qed.

(** A roughness in (0,1]. *)
Lemma unit_roughness (r : float) :
  valid32 r = true -> flt f0 r = true -> fle r f1 = true ->
  exists m e, r = S754_finite false m e
              /\ bounded prec32 emax32 m e = true
              /\ Zpos m * 2 ^ (e + 149) <= 2 ^ 149.
Proof.
  intros Hv Hpos Hle.
  destruct r as [s|s| |s m e]; try discriminate.
  - destruct s; discriminate.
  - destruct s; [discriminate|].
    exists m, e. split; [reflexivity|]. split; [exact Hv|].
    unfold fle, SFleb, f1 in Hle.
    rewrite (SFcompare_pos m e 8388608 (-23) Hv eq_refl) in Hle.
    change (8388608 * 2 ^ (-23 + 149)) with (2 ^ 149) in Hle.
    destruct (Z.compare_spec (Zpos m * 2 ^ (e + 149)) (2 ^ 149));
      try discriminate; lia.
Qed.

(** An anisotropy in [0,1]. *)
Lemma unit_anisotropy (a : float) :
  valid32 a = true -> fle f0 a = true -> fle a f1 = true ->
  (exists s, a = S754_zero s)
  \/ exists m e, a = S754_finite false m e
                 /\ bounded prec32 emax32 m e = true
                 /\ Zpos m * 2 ^ (e + 149) <= 2 ^ 149.
Proof.
  intros Hv Hpos Hle.
  destruct a as [s|s| |s m e]; try discriminate.
  - left. now exists s.
  - destruct s; discriminate.
  - destruct s; [discriminate|]. right.
    apply unit_roughness; [exact Hv|reflexivity|exact Hle].
Qed.

Lemma square_unit (u : float) (n : Z) :
  Mag u n -> n <= 2 ^ 149 -> Unit01 (square u).
Proof.
  intros Hu Hn. pow2_facts.
  destruct (fmul_le_left u u n n Hu Hu ltac:(lia) Hn) as [k [Hk [Hle Hs]]].
  split.
  - unfold square. rewrite Hs. apply xorb_nilpotent.
  - exists k. split; [exact Hk|lia].
Qed.

(** [t = (2 a - 1)^2] for an anisotropy in [0,1]. *)
Lemma remap_parameter_unit (a : float) :
  valid32 a = true -> fle f0 a = true -> fle a f1 = true ->
  Unit01 (square (fsub (fmul f2 a) f1)).
Proof.
  intros Hv H0 H1.
  destruct (unit_anisotropy a Hv H0 H1) as [[s ->]|[m [e [-> [Hb Hn]]]]].
  - rewrite square_of_zero_remap. apply Unit01_f1.
  - pow2_facts.
    destruct (fmul_le_left f2 (S754_finite false m e) (2 ^ 150) _
                Mag_f2 (conj Hb eq_refl) ltac:(lia) Hn)
      as [n2 [Hn2 [Hle2 Hs2]]].
    destruct (fsub_from_one _ n2 Hn2 Hs2 Hle2) as [nu [Hnu Hleu]].
    apply (square_unit _ nu Hnu Hleu).
Qed.

Lemma lerp_unit (alpha t : float) :
  Unit01 alpha -> Unit01 t -> Unit01 (lerp alpha f1 t).
Proof.
  intros [Hsa [na [Hna Hlea]]] [Hst [nt [Hnt Hlet]]]. pow2_facts.
  unfold lerp.
  destruct (fsub_one t nt Hnt Hst Hlet) as [nw [Hnw [Hsw [Hlew Herr]]]].
  destruct (fmul_le_left (fsub f1 t) alpha nw na Hnw Hna ltac:(lia) Hlea)
    as [np [Hnp [Hlep Hsp]]].
  destruct (fmul_le_left t f1 nt (2 ^ 149) Hnt Mag_f1 ltac:(lia) ltac:(lia))
    as [nq [Hnq [Hleq Hsq]]].
  rewrite Hsw, Hsa in Hsp. rewrite Hst in Hsq.
  destruct (fadd_near_one _ _ np nq Hnp Hsp Hnq Hsq) as [n [Hn [Hs Hle]]];
    try lia.
  split; [exact Hs|]. exists n. split; [exact Hn|exact Hle].
Qed.

Lemma precompute_alpha_unit (r a : float) :
  valid32 r = true -> valid32 a = true ->
  flt f0 r = true -> fle r f1 = true ->
  fle f0 a = true -> fle a f1 = true ->
  Unit01 (m_alpha_x (precompute_alpha r a))
  /\ Unit01 (m_alpha_y (precompute_alpha r a)).
Proof.
  intros Hvr Hva Hr0 Hr1 Ha0 Ha1.
  destruct (unit_roughness r Hvr Hr0 Hr1) as [m [e [-> [Hb Hn]]]].
  assert (Halpha : Unit01 (square (S754_finite false m e)))
    by (apply (square_unit (S754_finite false m e) _ (conj Hb eq_refl) Hn)).
  pose proof (remap_parameter_unit a Hva Ha0 Ha1) as Ht.
  unfold precompute_alpha.
  destruct (fneq a fhalf); [destruct (flt a fhalf)|]; cbn [m_alpha_x m_alpha_y];
    split; try assumption; now apply lerp_unit.
Qed.

(** ** Strict positivity *)

(** A magnitude above half the least subnormal does not round to zero. *)
Lemma Rnd_pos (U v : Z) (s : bool) (r : float) :
  149 <= U -> Rnd U v s r -> 2 ^ (U - 149) < 2 * v ->
  exists n, Mag r n /\ fsign r = s /\ 0 < n.
Proof.
  intros HU [k [e [He [Hk [Hc [-> [Hnear [Hlo Hhi]]]]]]]] Hv.
  destruct (encode_Mag s k e He Hk Hc) as [HM Hs].
  exists (k * 2 ^ (e + 149)). split; [exact HM|]. split; [exact Hs|].
  pose proof (pow2_pos (e + 149) ltac:(lia)) as HG.
  pose proof (pow2_pos (e + U) ltac:(lia)) as HGU.
  assert (k <> 0); [|nia].
  intros ->.
  destruct Hlo as [->|Hlo].
  - replace (-149 + U) with (U - 149) in * by lia. lia.
  - assert (2 ^ (e + U) <= 2 ^ (e + 23 + U)) by (apply pow2_le_mono; lia).
    lia.
Qed.

Lemma Mag_zero_inv (x : float) : Mag x 0 -> exists s, x = S754_zero s.
Proof.
  destruct x as [s|s| |s m e]; cbn [Mag]; try contradiction.
  - intros _. now exists s.
  - intros [Hb Hn]. apply bounded_inv in Hb.
    pose proof (pow2_pos (e + 149) ltac:(lia)). nia.
Qed.

(** A product of magnitude above [2^-150] is not flushed to zero. *)
Lemma fmul_pos (x y : float) (nx ny : Z) :
  Mag x nx -> Mag y ny -> nx <= 2 ^ 150 -> ny <= 2 ^ 150 ->
  2 ^ 149 < 2 * (nx * ny) ->
  exists n, Mag (fmul x y) n /\ 0 < n.
Proof.
  intros Hx Hy Hnx Hny Hv.
  destruct x as [sx|sx| |sx mx ex]; cbn [Mag] in Hx; try contradiction;
    destruct y as [sy|sy| |sy my ey]; cbn [Mag] in Hy; try contradiction;
    try (pow2_facts; subst; lia).
  destruct Hx as [Hbx ->], Hy as [Hby ->].
  assert (Hex : ex <= 0).
  { destruct (bounded_exponent mx ex 150 Hbx ltac:(lia) Hnx); lia. }
  assert (Hey : ey <= 0).
  { destruct (bounded_exponent my ey 150 Hby ltac:(lia) Hny); lia. }
  pose proof (fmul_Rnd sx mx ex sy my ey Hbx Hby Hex Hey) as HR.
  destruct (Rnd_pos 298 _ _ _ ltac:(lia) HR) as [n [Hn [_ Hpos]]].
  - exact Hv.
  - exists n. split; assumption.
Qed.

(** A sum of non-negative terms, one of them positive, is positive. *)
Lemma fadd_pos (p q : float) (np nq : Z) :
  Mag p np -> fsign p = false -> Mag q nq -> fsign q = false ->
  np <= 2 ^ 149 -> nq <= 2 ^ 149 -> 0 < np + nq ->
  exists n, Mag (fadd p q) n /\ 0 < n.
Proof.
  intros Hp Hsp Hq Hsq Hnp Hnq Hsum.
  pose proof (Mag_nonneg _ _ Hp) as Hp0. pose proof (Mag_nonneg _ _ Hq) as Hq0.
  destruct p as [sp|sp| |sp mp ep]; cbn [Mag] in Hp; try contradiction;
    destruct q as [sq|sq| |sq mq eq]; cbn [Mag] in Hq; try contradiction;
    cbn [fsign] in Hsp, Hsq; subst.
  - lia.
  - exists (Zpos mq * 2 ^ (eq + 149)). unfold fadd, SFadd. cbn [Mag].
    destruct Hq as [Hbq ->]. repeat split; [exact Hbq|lia].
  - exists (Zpos mp * 2 ^ (ep + 149)). unfold fadd, SFadd. cbn [Mag].
    destruct Hp as [Hbp ->]. repeat split; [exact Hbp|lia].
  - destruct Hp as [Hbp ->], Hq as [Hbq ->]. pow2_facts.
    pose proof (fadd_pos_Rnd mp ep mq eq Hbp Hbq ltac:(lia)) as HR.
    destruct (Rnd_pos 149 _ _ _ ltac:(lia) HR) as [n [Hn [_ Hpos]]].
    + change (2 ^ (149 - 149)) with 1. lia.
    + exists n. split; assumption.
Qed.

Lemma UnitPos_Unit01 (x : float) : UnitPos x -> Unit01 x.
Proof.
  intros [Hs [n [Hn Hle]]]. split; [exact Hs|]. exists n. split; [exact Hn|lia].
Qed.

Lemma Unit01_pos (x : float) (n : Z) :
  Unit01 x -> Mag x n -> 0 < n -> UnitPos x.
Proof.
  intros [Hs [n' [Hn' Hle]]] Hn Hpos. rewrite (Mag_inj _ _ _ Hn' Hn) in Hle.
  split; [exact Hs|]. exists n. split; [exact Hn|lia].
Qed.

Lemma UnitPos_flt (x : float) : UnitPos x -> flt f0 x = true.
Proof.
  intros [Hs [n [Hn Hpos]]].
  destruct x as [s|s| |s m e]; cbn [Mag] in Hn; try contradiction;
    cbn [fsign] in Hs; subst s; [lia|reflexivity].
Qed.

(** The square of a roughness in (2^-75, 1] does not underflow. *)
Lemma square_unit_pos (r : float) :
  valid32 r = true -> flt (fpow2 (-75)) r = true -> fle r f1 = true ->
  UnitPos (square r).
Proof.
  intros Hv Hlo Hhi.
  assert (H0 : flt f0 r = true).
  { destruct r as [s|s| |s m e]; try discriminate; destruct s;
      try discriminate; reflexivity. }
  destruct (unit_roughness r Hv H0 Hhi) as [m [e [-> [Hb Hn]]]].
  assert (Hbig : 2 ^ 74 < Zpos m * 2 ^ (e + 149)).
  { unfold flt, SFltb in Hlo.
    change (fpow2 (-75)) with (S754_finite false 8388608 (-98)) in Hlo.
    rewrite (SFcompare_pos 8388608 (-98) m e eq_refl Hb) in Hlo.
    change (8388608 * 2 ^ (-98 + 149)) with (2 ^ 74) in Hlo.
    destruct (Z.compare_spec (2 ^ 74) (Zpos m * 2 ^ (e + 149)));
      try discriminate; lia. }
  pose proof (square_unit _ _ (conj Hb eq_refl : Mag (S754_finite false m e) _) Hn)
    as HU.
  pow2_facts.
  destruct (fmul_pos (S754_finite false m e) (S754_finite false m e) _ _
              (conj Hb eq_refl) (conj Hb eq_refl) ltac:(lia) ltac:(lia))
    as [k [Hk Hpos]].
  - change (2 ^ 149) with (2 * (2 ^ 74 * 2 ^ 74)). nia.
  - apply (Unit01_pos _ k HU Hk Hpos).
Qed.

Lemma lerp_unit_pos (alpha t : float) :
  UnitPos alpha -> Unit01 t -> UnitPos (lerp alpha f1 t).
Proof.
  intros Ha Ht. pose proof (lerp_unit alpha t (UnitPos_Unit01 _ Ha) Ht) as HU.
  destruct Ha as [Hsa [na [Hna Hlea]]]. destruct Ht as [Hst [nt [Hnt Hlet]]].
  pow2_facts. unfold lerp in *.
  destruct (fsub_one t nt Hnt Hst Hlet) as [nw [Hnw [Hsw [Hlew Herr]]]].
  destruct (fmul_le_left (fsub f1 t) alpha nw na Hnw Hna ltac:(lia) ltac:(lia))
    as [np [Hnp [Hlep Hsp]]].
  destruct (fmul_le_left t f1 nt (2 ^ 149) Hnt Mag_f1 ltac:(lia) ltac:(lia))
    as [nq [Hnq [Hleq Hsq]]].
  rewrite Hsw, Hsa in Hsp. rewrite Hst in Hsq.
  pose proof (Mag_nonneg _ _ Hnp) as Hp0. pose proof (Mag_nonneg _ _ Hnq) as Hq0.
  pose proof (Mag_nonneg _ _ Hnt) as Ht0.
  assert (Hsum : 0 < np + nq).
  { destruct (Z.eq_dec nt 0) as [->|Hne].
    - destruct (Mag_zero_inv _ Hnt) as [s ->]. cbn [fsign] in Hst. subst s.
      change (fsub f1 (S754_zero false)) with f1 in Hnp.
      destruct (fmul_pos f1 alpha (2 ^ 149) na Mag_f1 Hna ltac:(lia) ltac:(lia))
        as [k [Hk Hpos]]; [nia|].
      rewrite (Mag_inj _ _ _ Hnp Hk). lia.
    - destruct (fmul_pos t f1 nt (2 ^ 149) Hnt Mag_f1 ltac:(lia) ltac:(lia))
        as [k [Hk Hpos]]; [nia|].
      rewrite (Mag_inj _ _ _ Hnq Hk). lia. }
  destruct (fadd_pos _ _ np nq Hnp Hsp Hnq Hsq ltac:(lia) ltac:(lia) Hsum)
    as [n [Hn Hpos]].
  apply (Unit01_pos _ n HU Hn Hpos).
Qed.

Lemma precompute_alpha_unit_pos (r a : float) :
  valid32 r = true -> valid32 a = true ->
  flt (fpow2 (-75)) r = true -> fle r f1 = true ->
  fle f0 a = true -> fle a f1 = true ->
  UnitPos (m_alpha_x (precompute_alpha r a))
  /\ UnitPos (m_alpha_y (precompute_alpha r a)).
Proof.
  intros Hvr Hva Hr0 Hr1 Ha0 Ha1.
  pose proof (square_unit_pos r Hvr Hr0 Hr1) as Halpha.
  pose proof (remap_parameter_unit a Hva Ha0 Ha1) as Ht.
  unfold precompute_alpha.
  destruct (fneq a fhalf); [destruct (flt a fhalf)|]; cbn [m_alpha_x m_alpha_y];
    split; try assumption; now apply lerp_unit_pos.
Qed.

(** ** Spectra, channel by channel *)

Lemma spectrum_mul_channel (a b : Spectrum) (i : nat) (x y : float) :
  nth_error a i = Some x -> nth_error b i = Some y ->
  nth_error (spectrum_mul a b) i = Some (fmul x y).
Proof.
  revert b i. induction a as [|c a IH]; intros [|d b] [|i]; simpl;
    try discriminate.
  - intros [= ->] [= ->]. reflexivity.
  - apply IH.
Qed.

Lemma madd_channel (a b : Spectrum) (c : float) (i : nat) (x y : float) :
  nth_error a i = Some x -> nth_error b i = Some y ->
  nth_error (madd a b c) i = Some (fadd x (fmul y c)).
Proof.
  revert b i. induction a as [|u a IH]; intros [|v b] [|i]; simpl;
    try discriminate.
  - intros [= ->] [= ->]. reflexivity.
  - apply IH.
Qed.

(** ** Negation and commutativity *)

Lemma fneg_involutive (x : float) : fneg (fneg x) = x.
Proof. destruct x as [s|s| |s m e]; cbn; now rewrite ?negb_involutive. Qed.

Lemma vneg_involutive (v : Vector3f) : vneg (vneg v) = v.
Proof. destruct v. unfold vneg. cbn. now rewrite !fneg_involutive. Qed.

Lemma flt_fneg_zero (x : float) : flt (fneg x) f0 = flt f0 x.
Proof. destruct x as [s|s| |s m e]; try reflexivity; now destruct s. Qed.

Lemma fmul_comm (x y : float) : fmul x y = fmul y x.
Proof.
  destruct x as [sx|sx| |sx mx ex], y as [sy|sy| |sy my ey]; cbn;
    try reflexivity; try (now rewrite xorb_comm).
  unfold fmul, SFmul.
  now rewrite xorb_comm, Pos.mul_comm, Z.add_comm.
Qed.

Lemma fadd_comm (x y : float) : fadd x y = fadd y x.
Proof.
  destruct x as [sx|sx| |sx mx ex], y as [sy|sy| |sy my ey];
    try reflexivity; try (now destruct sx, sy).
  unfold fadd, SFadd. now rewrite Z.min_comm, Z.add_comm.
Qed.

Lemma vadd_comm (a b : Vector3f) : vadd a b = vadd b a.
Proof.
  unfold vadd.
  now rewrite (fadd_comm (vx a)), (fadd_comm (vy a)), (fadd_comm (vz a)).
Qed.

(** ** Signs of results *)

(** Not negative: a NaN, a zero of either sign, or a positive number. *)
Lemma binary_round_aux_nonneg (s : bool) (m e : Z) (l : location) :
  0 <= m ->
  let r := binary_round_aux prec32 emax32 s m e l in
  is_nan r = false /\ fsign r = s.
Proof.
  intros Hm. cbv zeta. unfold binary_round_aux.
  pose proof (shr_fexp_nonneg m e l Hm) as H1.
  destruct (shr_fexp prec32 emax32 m e l) as [mrs' e'].
  cbn [fst] in H1.
  pose proof (round_nearest_even_nonneg (shr_m mrs') (loc_of_shr_record mrs') H1)
    as H2.
  pose proof (shr_fexp_nonneg _ e' loc_Exact H2) as H3.
  destruct (shr_fexp prec32 emax32 _ e' loc_Exact) as [mrs'' e''].
  cbn [fst] in H3.
  destruct (shr_m mrs'') as [|p|p]; [split; reflexivity| |lia].
  destruct (e'' <=? emax32 - prec32); split; reflexivity.
Qed.

Lemma sign_not_below (r : float) :
  is_nan r = false -> fsign r = false -> flt r f0 = false.
Proof.
  destruct r as [s|s| |s m e]; cbn; intros; subst; try reflexivity;
    discriminate.
Qed.

Lemma fmul_not_below (x y : float) :
  flt x f0 = false -> flt y f0 = false -> flt (fmul x y) f0 = false.
Proof.
  intros Hx Hy.
  destruct x as [sx|sx| |sx mx ex]; try reflexivity;
    destruct y as [sy|sy| |sy my ey]; try reflexivity;
    try (destruct sx; try discriminate); try (destruct sy; try discriminate);
    try reflexivity.
  all: try (destruct sx; reflexivity); try (destruct sy; reflexivity).
  unfold fmul, SFmul. cbn [xorb].
  destruct (binary_round_aux_nonneg false (Zpos (mx * my)) (ex + ey) loc_Exact)
    as [Hn Hs]; [lia|].
  now apply sign_not_below.
Qed.

Lemma binary_round_nonneg (m : positive) (e : Z) :
  flt (binary_round prec32 emax32 false m e) f0 = false.
Proof.
  unfold binary_round.
  destruct (shl_align m e _) as [mz ez].
  destruct (binary_round_aux_nonneg false (Zpos mz) ez loc_Exact) as [Hn Hs];
    [lia|].
  now apply sign_not_below.
Qed.

Lemma fadd_not_below (x y : float) :
  flt x f0 = false -> flt y f0 = false -> flt (fadd x y) f0 = false.
Proof.
  intros Hx Hy.
  destruct x as [sx|sx| |sx mx ex]; try reflexivity;
    destruct y as [sy|sy| |sy my ey]; try reflexivity;
    try (destruct sx; try discriminate); try (destruct sy; try discriminate);
    try reflexivity.
  all: try (destruct sx; reflexivity); try (destruct sy; reflexivity).
  unfold fadd, SFadd. cbn [cond_Zopp].
  cbn [Z.add binary_normalize]. apply binary_round_nonneg.
Qed.

(** The reciprocal of a number whose sign bit is clear. *)
Lemma reciprocal_not_below (d : float) :
  fsign d = false -> flt (fdiv f1 d) f0 = false.
Proof.
  intros Hs.
  destruct d as [s|s| |s m e]; cbn [fsign] in Hs; subst; try reflexivity.
  unfold fdiv, f1, SFdiv, SFdiv_core_binary.
  set (m' := match _ - _ - _ with Z0 => _ | Zpos _ => _ | Zneg _ => _ end).
  assert (Hm' : 0 <= m').
  { unfold m'. destruct (_ - _ - _); try lia. apply Z.shiftl_nonneg. lia. }
  pose proof (Z.div_pos m' (Zpos m) Hm' ltac:(lia)) as Hq.
  unfold Z.div in Hq.
  destruct (Z.div_eucl m' (Zpos m)) as [q r].
  destruct (binary_round_aux_nonneg false q
              (Z.min (fexp prec32 emax32
                        (Zdigits2 8388608 + -23 - (Zdigits2 (Zpos m) + e)))
                 (-23 - e))
              (new_location (Zpos m) r) Hq) as [Hn Hsg].
  cbn [xorb]. now apply sign_not_below.
Qed.

Lemma fsign_fmul_fabs (c : float) : fsign (fmul f4 (fabs c)) = false.
Proof.
  destruct c as [s|s| |s m e]; try reflexivity.
  unfold fmul, f4, fabs, SFabs, SFmul. cbn [xorb].
  now destruct (binary_round_aux_nonneg false (Zpos (8388608 * m)) (-21 + e)
                  loc_Exact ltac:(lia)).
Qed.

(** ** Multiplication by one *)

Lemma mul_pow23 (m : positive) : (m * 8388608)%positive = Pos.iter xO m 23.
Proof.
  apply Pos2Z.inj. rewrite iter_xO_value, Pos2Z.inj_mul. reflexivity.
Qed.

Lemma binary_round_aux_one (s : bool) (m : positive) (e : Z) :
  bounded prec32 emax32 m e = true ->
  binary_round_aux prec32 emax32 s (Zpos (m * 8388608)) (e + -23) loc_Exact
  = S754_finite s m e.
Proof.
  intros Hb.
  pose proof (bounded_inv m e Hb) as (He & Hm & _).
  assert (Hc : fexp prec32 emax32 (Zpos (digits2_pos m) + e) = e).
  { unfold bounded, canonical_mantissa in Hb.
    apply andb_prop in Hb. destruct Hb as [Hb _].
    now apply Z.eqb_eq in Hb. }
  rewrite mul_pow23.
  unfold binary_round_aux. unfold shr_fexp at 1.
  cbn [Zdigits2]. rewrite iter_xO_digits.
  replace (Zpos (digits2_pos m) + 23 + (e + -23))
    with (Zpos (digits2_pos m) + e) by lia.
  rewrite Hc. replace (e - (e + -23)) with 23 by lia.
  unfold shr. cbn [shr_record_of_loc].
  change (iter_pos shr_1 23
            {| shr_m := Zpos (Pos.iter xO m 23); shr_r := false; shr_s := false |})
    with {| shr_m := Zpos m; shr_r := false; shr_s := false |}.
  cbn [shr_m loc_of_shr_record round_nearest_even].
  replace (e + -23 + 23) with e by lia.
  rewrite shr_fexp_small by lia. cbn [shr_m].
  replace (e <=? emax32 - prec32) with true; [reflexivity|].
  symmetry. apply Z.leb_le. unfold emax32, prec32. lia.
Qed.

Lemma fmul_one_r (x : float) : valid32 x = true -> fmul x f1 = x.
Proof.
  destruct x as [s|s| |s m e]; intros Hv; try reflexivity;
    try (now destruct s).
  unfold fmul, f1, SFmul. rewrite xorb_false_r.
  now apply binary_round_aux_one.
Qed.

Lemma fmul_one_l (x : float) : valid32 x = true -> fmul f1 x = x.
Proof. intros Hv. rewrite fmul_comm. now apply fmul_one_r. Qed.

(** ** The two weights of the blend *)

Lemma max_value_valid (s : Spectrum) :
  forallb valid32 s = true -> valid32 (max_value s) = true.
Proof.
  destruct s as [|c rest]; [reflexivity|].
  cbn [forallb max_value]. intros Hv. apply andb_prop in Hv.
  destruct Hv as [Hc Hrest]. revert c Hc.
  induction rest as [|x rest IH]; intros c Hc; [exact Hc|].
  cbn [forallb] in Hrest. apply andb_prop in Hrest. destruct Hrest as [Hx Hr].
  cbn [fold_left]. destruct (flt c x); now apply IH.
Qed.

(** A well-formed weight is a NaN, a negative zero, or lies in [0,1]. *)
Lemma saturate_cases (x : float) :
  valid32 x = true ->
  is_nan (saturate x) = true \/ saturate x = S754_zero true
  \/ Unit01 (saturate x).
Proof.
  intros Hv. unfold saturate.
  destruct (flt x f0) eqn:H0.
  { right; right. split; [reflexivity|]. exists 0. split; [reflexivity|].
    pow2_facts. lia. }
  destruct (flt f1 x) eqn:H1; [right; right; apply Unit01_f1|].
  destruct x as [s|s| |s m e]; [| | now left|].
  - destruct s; [right; left; reflexivity|].
    right; right. split; [reflexivity|]. exists 0. split; [reflexivity|].
    pow2_facts. lia.
  - destruct s; discriminate.
  - destruct s; [discriminate|].
    right; right.
    destruct (unit_roughness (S754_finite false m e) Hv eq_refl) as
      (m' & e' & Heq & Hb & Hle).
    { now apply not_flt_fle. }
    inversion Heq; subst m' e'.
    split; [reflexivity|]. exists (Zpos m * 2 ^ (e + 149)).
    split; [split; [exact Hb|reflexivity]|exact Hle].
Qed.

Lemma substrate_weight_cases (x : float) :
  valid32 x = true ->
  is_nan (fsub f1 (saturate x)) = true \/ Unit01 (fsub f1 (saturate x)).
Proof.
  intros Hv.
  destruct (saturate_cases x Hv) as [Hn|[Hz|Hu]].
  - left. destruct (saturate x); try discriminate. reflexivity.
  - right. rewrite Hz. apply Unit01_f1.
  - right. destruct Hu as [Hs [n [Hm Hn]]].
    destruct (fsub_one _ n Hm Hs Hn) as (k & Hk & Hsk & Hle & _).
    split; [exact Hsk|]. exists k. split; assumption.
Qed.

Lemma Unit01_not_below (x : float) : Unit01 x -> flt x f0 = false.
Proof.
  intros [Hs [n [Hm _]]].
  destruct x as [s|s| |s m e]; cbn [Mag] in Hm; try contradiction;
    cbn [fsign] in Hs; subst; reflexivity.
Qed.

Lemma substrate_weight_not_below (x : float) :
  valid32 x = true -> flt (fsub f1 (saturate x)) f0 = false.
Proof.
  intros Hv. destruct (substrate_weight_cases x Hv) as [Hn|Hu].
  - destruct (fsub f1 (saturate x)); try discriminate. reflexivity.
  - now apply Unit01_not_below.
Qed.

Lemma substrate_weight_unit (x : float) :
  valid32 x = true -> is_nan x = false -> Unit01 (fsub f1 (saturate x)).
Proof.
  intros Hv Hx. rewrite <- saturate_is_nan in Hx.
  destruct (saturate_cases x Hv) as [Hn|[Hz|Hu]].
  - rewrite Hn in Hx. discriminate.
  - rewrite Hz. apply Unit01_f1.
  - destruct Hu as [Hs [n [Hm Hn]]].
    destruct (fsub_one _ n Hm Hs Hn) as (k & Hk & Hsk & Hle & _).
    split; [exact Hsk|]. exists k. split; assumption.
Qed.

Lemma fle_zero_fneg (x : float) : flt x f0 = true -> fle f0 (fneg x) = true.
Proof. destruct x as [s|s| |s m e]; try discriminate; now destruct s. Qed.

(** The blend [w * r + s * (1 - w)] at weight zero. *)
Lemma blend_transparent (w r s : float) :
  feq w f0 = true -> is_finite r = true -> valid32 s = true ->
  let b := fadd (fmul w r) (fmul s (fsub f1 w)) in
  (feq s f0 = false -> b = s) /\ (feq s f0 = true -> feq b f0 = true).
Proof.
  intros Hw Hr Hs b.
  destruct (feq_zero_inv w Hw) as [sw ->].
  assert (H1 : fsub f1 (S754_zero sw) = f1) by reflexivity.
  unfold b. rewrite H1, (fmul_one_r s Hs).
  assert (Hz : exists z, fmul (S754_zero sw) r = S754_zero z).
  { destruct r as [sr|sr| |sr mr er]; try discriminate; eexists; reflexivity. }
  destruct Hz as [z ->].
  split; intros Hc.
  - destruct s as [ss|ss| |ss ms es]; try reflexivity. discriminate.
  - destruct (feq_zero_inv s Hc) as [ss ->]. now destruct z, ss.
Qed.

(** The blend [w * r + s * (1 - w)] at weight one. *)
Lemma blend_opaque (w r s : float) :
  feq w f1 = true -> valid32 r = true -> is_finite s = true ->
  let b := fadd (fmul w r) (fmul s (fsub f1 w)) in
  (feq r f0 = false -> b = r) /\ (feq r f0 = true -> feq b f0 = true).
Proof.
  intros Hw Hr Hs b.
  assert (Hw1 : w = f1) by (now apply feq_finite_inv). subst w.
  assert (H1 : fsub f1 f1 = f0) by reflexivity.
  unfold b. rewrite H1, (fmul_one_l r Hr).
  assert (Hz : exists z, fmul s f0 = S754_zero z).
  { destruct s as [ss|ss| |ss ms es]; try discriminate; eexists; reflexivity. }
  destruct Hz as [z ->].
  split; intros Hc.
  - destruct r as [sr|sr| |sr mr er]; try reflexivity. discriminate.
  - destruct (feq_zero_inv r Hc) as [sr ->]. now destruct z, sr.
Qed.

Lemma flt_zero_weight (x p : float) :
  feq p f0 = true -> flt x f0 = false -> flt x p = false.
Proof.
  intros Hp Hx. destruct (feq_zero_inv p Hp) as [s ->].
  destruct x as [sx|sx| |sx mx ex]; try reflexivity; try exact Hx.
Qed.

Lemma flt_nan_r (x p : float) : is_nan p = true -> flt x p = false.
Proof. destruct p; try discriminate. now destruct x. Qed.

Lemma flt_nan_l (x p : float) : is_nan x = true -> flt x p = false.
Proof. destruct x; try discriminate. reflexivity. Qed.

Lemma lerp_nan_start (b t : float) : lerp S754_nan b t = S754_nan.
Proof.
  unfold lerp. destruct (fsub f1 t); reflexivity.
Qed.

Lemma fdiv_not_below (x d : float) :
  flt x f0 = false -> fsign d = false -> flt (fdiv x d) f0 = false.
Proof.
  intros Hx Hs.
  destruct d as [s|s| |s m e]; cbn [fsign] in Hs; subst;
    destruct x as [sx|sx| |sx mx ex]; try reflexivity;
    try (destruct sx; try discriminate; reflexivity).
  destruct sx; [discriminate|].
  unfold fdiv, SFdiv, SFdiv_core_binary.
  set (m' := match _ - _ - _ with Z0 => _ | Zpos _ => _ | Zneg _ => _ end).
  assert (Hm' : 0 <= m').
  { unfold m'. destruct (_ - _ - _); try lia. apply Z.shiftl_nonneg. lia. }
  pose proof (Z.div_pos m' (Zpos m) Hm' ltac:(lia)) as Hq.
  unfold Z.div in Hq.
  destruct (Z.div_eucl m' (Zpos m)) as [q r].
  destruct (binary_round_aux_nonneg false q
              (Z.min (fexp prec32 emax32
                        (Zdigits2 (Zpos mx) + ex - (Zdigits2 (Zpos m) + e)))
                 (ex - e))
              (new_location (Zpos m) r) Hq) as [Hn Hsg].
  cbn [xorb]. now apply sign_not_below.
Qed.

Lemma fsign_fabs (x : float) : fsign (fabs x) = false.
Proof. now destruct x. Qed.

Lemma madd_not_below (a b : Spectrum) (c : float) :
  Forall (fun x => flt x f0 = false) a ->
  Forall (fun x => flt x f0 = false) b ->
  flt c f0 = false ->
  Forall (fun x => flt x f0 = false) (madd a b c).
Proof.
  intros Ha Hb Hc. unfold madd. revert b Hb.
  induction Ha as [|x a Hx Ha IH]; intros b Hb; [constructor|].
  destruct Hb as [|y b Hy Hb]; [constructor|].
  cbn. constructor; [|now apply IH].
  apply fadd_not_below; [exact Hx|]. now apply fmul_not_below.
Qed.

(** ** Rounding is monotone *)

Lemma Rnd_mono (U v1 v2 : Z) (s1 s2 : bool) (r1 r2 : float) :
  149 <= U -> Rnd U v1 s1 r1 -> Rnd U v2 s2 r2 -> v1 < v2 ->
  exists n1 n2, Mag r1 n1 /\ Mag r2 n2 /\ n1 <= n2.
Proof.
  intros HU [k1 [e1 (He1 & Hk1 & Hc1 & -> & Hn1 & Hlo1 & Hhi1)]]
            [k2 [e2 (He2 & Hk2 & Hc2 & -> & Hn2 & Hlo2 & Hhi2)]] Hv.
  exists (k1 * 2 ^ (e1 + 149)), (k2 * 2 ^ (e2 + 149)).
  split; [now apply encode_Mag|]. split; [now apply encode_Mag|].
  pose proof (pow2_pos (e1 + U) ltac:(lia)) as HG1.
  pose proof (pow2_pos (e2 + U) ltac:(lia)) as HG2.
  pose proof (pow2_pos (e1 + 149) ltac:(lia)) as HA1.
  pose proof (pow2_pos (e2 + 149) ltac:(lia)) as HA2.
  replace (e1 + 23 + U) with (23 + (e1 + U)) in Hlo1 by lia.
  replace (e2 + 23 + U) with (23 + (e2 + U)) in Hlo2 by lia.
  replace (e1 + 24 + U) with (24 + (e1 + U)) in Hhi1 by lia.
  replace (e2 + 24 + U) with (24 + (e2 + U)) in Hhi2 by lia.
  rewrite (pow2_split 23 (e1 + U)) in Hlo1 by lia.
  rewrite (pow2_split 23 (e2 + U)) in Hlo2 by lia.
  rewrite (pow2_split 24 (e1 + U)) in Hhi1 by lia.
  rewrite (pow2_split 24 (e2 + U)) in Hhi2 by lia.
  change (2 ^ 23) with 8388608 in *. change (2 ^ 24) with 16777216 in *.
  destruct (Z.lt_trichotomy e1 e2) as [Hlt|[Heq|Hgt]].
  - (* the second result lies in a higher binade *)
    destruct Hlo2 as [?|Hlo2]; [lia|].
    assert (Hk2' : 8388608 <= k2) by nia.
    assert (Hstep : 2 * 2 ^ (e1 + 149) <= 2 ^ (e2 + 149)).
    { replace (2 * 2 ^ (e1 + 149)) with (2 ^ (1 + (e1 + 149)))
        by (rewrite (pow2_split 1 (e1 + 149)) by lia; reflexivity).
      apply pow2_le_mono. lia. }
    nia.
  - subst e2.
    assert (Hk : k1 <= k2).
    { destruct (Z.le_gt_cases k1 k2) as [|Hgt]; [assumption|exfalso].
      assert ((k2 + 1) * 2 ^ (e1 + U) <= k1 * 2 ^ (e1 + U))
        by (apply Z.mul_le_mono_nonneg_r; lia).
      lia. }
    apply Z.mul_le_mono_nonneg_r; lia.
  - exfalso. destruct Hlo1 as [?|Hlo1]; [lia|].
    assert (Hstep : 2 * 2 ^ (e2 + U) <= 2 ^ (e1 + U)).
    { replace (2 * 2 ^ (e2 + U)) with (2 ^ (1 + (e2 + U)))
        by (rewrite (pow2_split 1 (e2 + U)) by lia; reflexivity).
      apply pow2_le_mono. lia. }
    nia.
Qed.

(** A representable magnitude rounds to itself. *)
Lemma Rnd_self (m : positive) (e : Z) :
  bounded prec32 emax32 m e = true -> e <= 103 ->
  Rnd 149 (Zpos m * 2 ^ (e + 149)) false (S754_finite false m e).
Proof.
  intros Hb He. destruct (bounded_inv m e Hb) as (Hr & Hm & Hc).
  pose proof (pow2_pos (e + 149) ltac:(lia)) as HG.
  exists (Zpos m), e.
  replace (e + 23 + 149) with (23 + (e + 149)) by lia.
  replace (e + 24 + 149) with (24 + (e + 149)) by lia.
  rewrite (pow2_split 23 (e + 149)), (pow2_split 24 (e + 149)) by lia.
  change (2 ^ 23) with 8388608. change (2 ^ 24) with 16777216.
  repeat split; try lia.
  - unfold encode. replace (Zpos m <? 16777216) with true; [reflexivity|].
    symmetry. apply Z.ltb_lt. lia.
  - destruct Hc as [?|?]; [now left|right; nia].
  - nia.
Qed.

(** ** Floats in [0,1] by sign and magnitude *)

Lemma Mag_unique_pos (x y : float) (n : Z) :
  Mag x n -> Mag y n -> fsign x = false -> fsign y = false -> x = y.
Proof.
  intros Hx Hy Hsx Hsy.
  destruct x as [sx|sx| |sx mx ex]; cbn [Mag] in Hx; try contradiction;
    destruct y as [sy|sy| |sy my ey]; cbn [Mag] in Hy; try contradiction;
    cbn [fsign] in Hsx, Hsy; subst sx sy.
  - reflexivity.
  - destruct Hy as [Hb Hn]. destruct (bounded_inv _ _ Hb) as (He & _ & _).
    pose proof (pow2_pos (ey + 149) ltac:(lia)). nia.
  - destruct Hx as [Hb Hn]. destruct (bounded_inv _ _ Hb) as (He & _ & _).
    pose proof (pow2_pos (ex + 149) ltac:(lia)). nia.
  - destruct Hx as [Hbx Hnx], Hy as [Hby Hny].
    apply feq_finite_inv. unfold feq, SFeqb.
    rewrite (SFcompare_pos mx ex my ey Hbx Hby), <- Hnx, <- Hny.
    now rewrite Z.compare_refl.
Qed.

Lemma Mag_fle (x y : float) (nx ny : Z) :
  Mag x nx -> Mag y ny -> fsign x = false -> fsign y = false -> nx <= ny ->
  fle x y = true.
Proof.
  intros Hx Hy Hsx Hsy Hle.
  destruct x as [sx|sx| |sx mx ex]; cbn [Mag] in Hx; try contradiction;
    destruct y as [sy|sy| |sy my ey]; cbn [Mag] in Hy; try contradiction;
    cbn [fsign] in Hsx, Hsy; subst sx sy; try reflexivity.
  - destruct Hx as [Hb Hn]. destruct (bounded_inv _ _ Hb) as (He & _ & _).
    pose proof (pow2_pos (ex + 149) ltac:(lia)). nia.
  - destruct Hx as [Hbx Hnx], Hy as [Hby Hny].
    unfold fle, SFleb. rewrite (SFcompare_pos mx ex my ey Hbx Hby).
    rewrite <- Hnx, <- Hny.
    destruct (Z.compare_spec nx ny); try reflexivity. lia.
Qed.

Lemma fle_Mag (mx : positive) (ex : Z) (my : positive) (ey : Z) :
  bounded prec32 emax32 mx ex = true -> bounded prec32 emax32 my ey = true ->
  fle (S754_finite false mx ex) (S754_finite false my ey) = true ->
  Zpos mx * 2 ^ (ex + 149) <= Zpos my * 2 ^ (ey + 149).
Proof.
  intros Hbx Hby. unfold fle, SFleb.
  rewrite (SFcompare_pos mx ex my ey Hbx Hby).
  destruct (Z.compare_spec (Zpos mx * 2 ^ (ex + 149))
              (Zpos my * 2 ^ (ey + 149))); try discriminate; lia.
Qed.

(** ** Monotone operations on [0,1] *)

Lemma square_mono (x y : float) (nx ny : Z) :
  Mag x nx -> Mag y ny -> fsign x = false -> fsign y = false ->
  nx <= ny -> ny <= 2 ^ 149 ->
  exists px py, Mag (square x) px /\ Mag (square y) py /\ px <= py.
Proof.
  intros Hx Hy Hsx Hsy Hle Hny.
  destruct (fmul_le_left y y ny ny Hy Hy) as [py [Hpy _]];
    [pow2_facts; lia|lia|].
  destruct (Z.eq_dec nx ny) as [->|Hne].
  { rewrite (Mag_unique_pos x y ny Hx Hy Hsx Hsy).
    exists py, py. repeat split; try assumption; lia. }
  pose proof (Mag_nonneg _ _ Hx) as Hx0.
  destruct x as [sx|sx| |sx mx ex]; cbn [Mag] in Hx; try contradiction.
  { exists 0, py. split; [reflexivity|]. split; [exact Hpy|].
    now apply (Mag_nonneg (square y)). }
  destruct y as [sy|sy| |sy my ey]; cbn [Mag] in Hy; try contradiction.
  { lia. }
  destruct Hx as [Hbx ->], Hy as [Hby ->].
  assert (Hex : ex <= 0).
  { destruct (bounded_exponent mx ex 149 Hbx ltac:(lia) ltac:(lia)); lia. }
  assert (Hey : ey <= 0).
  { destruct (bounded_exponent my ey 149 Hby ltac:(lia) Hny); lia. }
  pose proof (fmul_Rnd sx mx ex sx mx ex Hbx Hbx Hex Hex) as H1.
  pose proof (fmul_Rnd sy my ey sy my ey Hby Hby Hey Hey) as H2.
  apply (Rnd_mono 298 _ _ _ _ _ _ ltac:(lia) H1 H2). nia.
Qed.

Lemma fmul_mono_r (u x y : float) (nu nx ny : Z) :
  Mag u nu -> Mag x nx -> Mag y ny -> fsign x = false -> fsign y = false ->
  nu <= 2 ^ 149 -> nx <= ny -> ny <= 2 ^ 149 ->
  exists px py, Mag (fmul u x) px /\ Mag (fmul u y) py /\ px <= py.
Proof.
  intros Hu Hx Hy Hsx Hsy Hnu Hle Hny.
  destruct (fmul_le_left u y nu ny Hu Hy) as [py [Hpy _]];
    [pow2_facts; lia|lia|].
  destruct (Z.eq_dec nx ny) as [->|Hne].
  { rewrite (Mag_unique_pos x y ny Hx Hy Hsx Hsy).
    exists py, py. repeat split; try assumption; lia. }
  pose proof (Mag_nonneg _ _ Hx) as Hx0.
  pose proof (Mag_nonneg _ _ Hpy) as Hpy0.
  destruct u as [su|su| |su mu eu]; cbn [Mag] in Hu; try contradiction.
  { destruct (fmul_le_left (S754_zero su) x 0 nx eq_refl Hx)
      as [px [Hpx [? _]]];
      [pow2_facts; lia|lia|].
    exists px, py. repeat split; try assumption.
    pose proof (Mag_nonneg _ _ Hpx). lia. }
  destruct x as [sx|sx| |sx mx ex]; cbn [Mag] in Hx; try contradiction.
  { exists 0, py. split; [reflexivity|]. split; [exact Hpy|exact Hpy0]. }
  destruct y as [sy|sy| |sy my ey]; cbn [Mag] in Hy; try contradiction.
  { lia. }
  destruct Hu as [Hbu ->], Hx as [Hbx ->], Hy as [Hby ->].
  assert (Heu : eu <= 0).
  { destruct (bounded_exponent mu eu 149 Hbu ltac:(lia) Hnu); lia. }
  assert (Hex : ex <= 0).
  { destruct (bounded_exponent mx ex 149 Hbx ltac:(lia) ltac:(lia)); lia. }
  assert (Hey : ey <= 0).
  { destruct (bounded_exponent my ey 149 Hby ltac:(lia) Hny); lia. }
  pose proof (fmul_Rnd su mu eu sx mx ex Hbu Hbx Heu Hex) as H1.
  pose proof (fmul_Rnd su mu eu sy my ey Hbu Hby Heu Hey) as H2.
  apply (Rnd_mono 298 _ _ _ _ _ _ ltac:(lia) H1 H2).
  destruct (bounded_inv _ _ Hbu) as (He & _ & _).
  pose proof (pow2_pos (eu + 149) ltac:(lia)). nia.
Qed.

(** The sum of two floats of [0,1], not both zero, is the rounding of the
    exact sum. *)
Lemma fadd_unit_Rnd (p q : float) (np nq : Z) :
  Mag p np -> fsign p = false -> Mag q nq -> fsign q = false ->
  np <= 2 ^ 149 -> nq <= 2 ^ 149 -> 0 < np + nq ->
  Rnd 149 (np + nq) false (fadd p q).
Proof.
  intros Hp Hsp Hq Hsq Hnp Hnq Hpos. pow2_facts.
  destruct p as [sp|sp| |sp mp ep]; cbn [Mag] in Hp; try contradiction;
    destruct q as [sq|sq| |sq mq eq]; cbn [Mag] in Hq; try contradiction;
    cbn [fsign] in Hsp, Hsq; subst sp sq.
  - lia.
  - destruct Hq as [Hb ->]. subst np. rewrite Z.add_0_l.
    change (fadd (S754_zero false) (S754_finite false mq eq))
      with (S754_finite false mq eq).
    apply Rnd_self; [exact Hb|].
    destruct (bounded_exponent mq eq 149 Hb ltac:(lia) Hnq); lia.
  - destruct Hp as [Hb ->]. subst nq. rewrite Z.add_0_r.
    change (fadd (S754_finite false mp ep) (S754_zero false))
      with (S754_finite false mp ep).
    apply Rnd_self; [exact Hb|].
    destruct (bounded_exponent mp ep 149 Hb ltac:(lia) Hnp); lia.
  - destruct Hp as [Hbp ->], Hq as [Hbq ->].
    apply fadd_pos_Rnd; try assumption. lia.
Qed.

Lemma fadd_mono_l (p1 p2 q : float) (n1 n2 nq : Z) :
  Mag p1 n1 -> fsign p1 = false -> Mag p2 n2 -> fsign p2 = false ->
  Mag q nq -> fsign q = false ->
  n1 <= n2 -> n2 <= 2 ^ 149 -> nq <= 2 ^ 149 ->
  exists s1 s2, Mag (fadd p1 q) s1 /\ Mag (fadd p2 q) s2 /\ s1 <= s2.
Proof.
  intros H1 Hs1 H2 Hs2 Hq Hsq Hle Hn2 Hnq.
  pose proof (Mag_nonneg _ _ H1) as H10.
  pose proof (Mag_nonneg _ _ Hq) as Hq0.
  destruct (Z.eq_dec (n2 + nq) 0) as [Hz|Hnz].
  { assert (n1 = 0) by lia. assert (n2 = 0) by lia. assert (nq = 0) by lia.
    subst. rewrite (Mag_unique_pos p1 p2 0 H1 H2 Hs1 Hs2).
    destruct (Mag_zero_inv _ H2) as [s ->], (Mag_zero_inv _ Hq) as [s' ->].
    cbn [fsign] in *. subst. exists 0, 0. repeat split; lia. }
  pose proof (fadd_unit_Rnd p2 q n2 nq H2 Hs2 Hq Hsq Hn2 Hnq ltac:(lia)) as R2.
  destruct (Z.eq_dec n1 n2) as [->|Hne].
  { rewrite (Mag_unique_pos p1 p2 n2 H1 H2 Hs1 Hs2).
    destruct (Rnd_Mag _ _ _ _ R2) as [s2 [Hm2 _]].
    exists s2, s2. repeat split; try assumption; lia. }
  destruct (Z.eq_dec (n1 + nq) 0) as [Hz1|Hnz1].
  { assert (n1 = 0) by lia. assert (nq = 0) by lia. subst.
    destruct (Mag_zero_inv _ H1) as [s ->], (Mag_zero_inv _ Hq) as [s' ->].
    cbn [fsign] in *. subst.
    destruct (Rnd_Mag _ _ _ _ R2) as [s2 [Hm2 _]].
    exists 0, s2. split; [reflexivity|]. split; [exact Hm2|].
    now apply (Mag_nonneg _ _ Hm2). }
  pose proof (fadd_unit_Rnd p1 q n1 nq H1 Hs1 Hq Hsq ltac:(lia) Hnq ltac:(lia))
    as R1.
  apply (Rnd_mono 149 _ _ _ _ _ _ ltac:(lia) R1 R2). lia.
Qed.

Lemma lerp_mono (x y t : float) (nx ny : Z) :
  Mag x nx -> fsign x = false -> Mag y ny -> fsign y = false ->
  nx <= ny -> ny <= 2 ^ 149 -> Unit01 t ->
  exists px py, Mag (lerp x f1 t) px /\ Mag (lerp y f1 t) py /\ px <= py.
Proof.
  intros Hx Hsx Hy Hsy Hle Hny [Hst [nt [Hnt Hlet]]]. pow2_facts.
  unfold lerp.
  destruct (fsub_one t nt Hnt Hst Hlet) as [nw [Hnw [Hsw [Hlew Herr]]]].
  destruct (fmul_le_left (fsub f1 t) x nw nx Hnw Hx ltac:(lia) ltac:(lia))
    as [a1 [Ha1 [Hla1 Hsa1]]].
  destruct (fmul_le_left (fsub f1 t) y nw ny Hnw Hy ltac:(lia) Hny)
    as [a2 [Ha2 [Hla2 Hsa2]]].
  destruct (fmul_le_left t f1 nt (2 ^ 149) Hnt Mag_f1 ltac:(lia) ltac:(lia))
    as [nq [Hnq [Hleq Hsq]]].
  rewrite Hsw, Hsx in Hsa1. rewrite Hsw, Hsy in Hsa2. rewrite Hst in Hsq.
  cbn [xorb fsign f1] in Hsa1, Hsa2, Hsq.
  destruct (fmul_mono_r (fsub f1 t) x y nw nx ny Hnw Hx Hy Hsx Hsy Hlew Hle Hny)
    as [b1 [b2 [Hb1 [Hb2 Hb]]]].
  rewrite (Mag_inj _ _ _ Hb1 Ha1) in Hb.
  rewrite (Mag_inj _ _ _ Hb2 Ha2) in Hb.
  apply (fadd_mono_l _ _ _ a1 a2 nq Ha1 Hsa1 Ha2 Hsa2 Hnq Hsq Hb);
    lia.
Qed.

Lemma precompute_alpha_mono (r1 r2 a : float) :
  valid32 r1 = true -> valid32 r2 = true -> valid32 a = true ->
  flt f0 r1 = true -> fle r1 r2 = true -> fle r2 f1 = true ->
  fle f0 a = true -> fle a f1 = true ->
  fle (m_alpha_x (precompute_alpha r1 a)) (m_alpha_x (precompute_alpha r2 a))
  = true
  /\ fle (m_alpha_y (precompute_alpha r1 a)) (m_alpha_y (precompute_alpha r2 a))
     = true.
Proof.
  intros Hv1 Hv2 Hva H0 H12 H1 Ha0 Ha1.
  assert (H02 : flt f0 r2 = true).
  { destruct r1 as [[]|[]| |[] m e], r2 as [[]|[]| |[] m2 e2];
      try discriminate; reflexivity. }
  assert (H11 : fle r1 f1 = true).
  { destruct r1 as [[]|[]| |[] m e], r2 as [[]|[]| |[] m2 e2];
      try discriminate.
    change (bounded prec32 emax32 m e = true) in Hv1.
    change (bounded prec32 emax32 m2 e2 = true) in Hv2.
    pose proof (fle_Mag _ _ _ _ Hv1 Hv2 H12) as Hle.
    pose proof (fle_Mag m2 e2 8388608 (-23) Hv2 eq_refl H1) as Hle1.
    change (8388608 * 2 ^ (-23 + 149)) with (2 ^ 149) in Hle1.
    apply (Mag_fle (S754_finite false m e) f1
             (Zpos m * 2 ^ (e + 149)) (2 ^ 149));
      [split; [exact Hv1|reflexivity]|exact Mag_f1|reflexivity|reflexivity|].
    lia. }
  destruct (unit_roughness r1 Hv1 H0 H11) as (m1 & e1 & -> & Hb1 & Hn1).
  destruct (unit_roughness r2 Hv2 H02 H1) as (m2 & e2 & -> & Hb2 & Hn2).
  pose proof (fle_Mag _ _ _ _ Hb1 Hb2 H12) as Hle.
  set (x := S754_finite false m1 e1) in *.
  set (y := S754_finite false m2 e2) in *.
  assert (Hx : Mag x (Zpos m1 * 2 ^ (e1 + 149)))
    by (split; [exact Hb1|reflexivity]).
  assert (Hy : Mag y (Zpos m2 * 2 ^ (e2 + 149)))
    by (split; [exact Hb2|reflexivity]).
  destruct (square_unit x _ Hx Hn1) as [Hsx [nx [Hnx Hlx]]].
  destruct (square_unit y _ Hy Hn2) as [Hsy [ny [Hny Hly]]].
  destruct (square_mono x y _ _ Hx Hy eq_refl eq_refl Hle Hn2)
    as [px [py [Hpx [Hpy Hp]]]].
  rewrite (Mag_inj _ _ _ Hpx Hnx) in Hp. rewrite (Mag_inj _ _ _ Hpy Hny) in Hp.
  assert (Hsq : fle (square x) (square y) = true)
    by (apply (Mag_fle _ _ nx ny); assumption).
  pose proof (remap_parameter_unit a Hva Ha0 Ha1) as Ht.
  assert (Hlerp : fle (lerp (square x) f1 (square (fsub (fmul f2 a) f1)))
                      (lerp (square y) f1 (square (fsub (fmul f2 a) f1)))
                  = true).
  { destruct (lerp_mono _ _ _ nx ny Hnx Hsx Hny Hsy Hp Hly Ht)
      as [lx [ly [Hlx' [Hly' Hl]]]].
    destruct (lerp_unit (square x) _
                (conj Hsx (ex_intro _ nx (conj Hnx Hlx))) Ht)
      as [Hs1 _].
    destruct (lerp_unit (square y) _
                (conj Hsy (ex_intro _ ny (conj Hny Hly))) Ht)
      as [Hs2 _].
    apply (Mag_fle _ _ lx ly); assumption. }
  unfold precompute_alpha.
  destruct (fneq a fhalf); [destruct (flt a fhalf)|]; cbn [m_alpha_x m_alpha_y];
    split; assumption.
Qed.

(* ================================================================= *)
(** * Part III: the layer *)
(* ================================================================= *)

Section Layer.

Variable W : HostTypes.
Variable H : Host W.

(** ** [sample] *)

(** [sample], read off its definition: the four draws, the Fresnel weight,
    then one of the two branches. *)
Lemma sample_cases
  (sampling_context : SamplingContext W) (values : InputValues W)
  (adjoint cosine_mult : bool) (smp : BSDFSample W) :
  let wo :=
    transform_to_local H (m_shading_basis smp) (get_value H (m_outgoing smp)) in
  let mdf := pick_mdf H (m_distribution values) in
  let draw := next2 H (split_in_place H sampling_context 4 1) in
  let s := fst draw in
  let m :=
    mdf_sample mdf wo (mkVector3f (s_0 s) (s_1 s) (s_2 s))
      (m_alpha_x (m_precomputed values)) (m_alpha_y (m_precomputed values)) in
  let fresnel := snd (fresnel_term H values wo m) in
  let layer_probability := saturate (max_value fresnel) in
  let marked := set_value smp fresnel in
  sample H sampling_context values adjoint cosine_mult smp
  = if flt (s_3 s) layer_probability
    then (snd draw, sample_coating H values mdf wo m marked)
    else bsdf_sample (m_osl_bsdf values) (snd draw)
           (m_substrate_closure_data values) adjoint false marked.
Proof.
  intros wo mdf draw s m fresnel layer_probability marked.
  unfold sample. fold wo. fold mdf. fold draw.
  unfold marked, layer_probability, fresnel, m, s.
  destruct draw as [s' ctx']. cbn [fst snd].
  destruct (fresnel_term H values wo _) as [p value] eqn:Eft.
  cbn [fst snd].
  assert (Hp : p = saturate (max_value value)).
  { unfold fresnel_term in Eft. now inversion Eft. }
  now rewrite <- Hp.
Qed.

(** C2: after the microfacet normal [m] is drawn from three of the four
    randoms, the layer probability is [saturate] of the maximum channel of
    the Fresnel spectrum at [(wo, m)], that spectrum is written to the
    sample's value, and the fourth random selects exactly one branch:
    [s[3] < layer_probability] runs the coating branch, anything else hands
    the same sampling context to the substrate's sampler with the cosine
    multiplication disabled. *)
Theorem sample_selects_one_branch
  (sampling_context : SamplingContext W) (values : InputValues W)
  (adjoint cosine_mult : bool) (smp : BSDFSample W) :
  let wo :=
    transform_to_local H (m_shading_basis smp) (get_value H (m_outgoing smp)) in
  let mdf := pick_mdf H (m_distribution values) in
  let draw := next2 H (split_in_place H sampling_context 4 1) in
  let s := fst draw in
  let m :=
    mdf_sample mdf wo (mkVector3f (s_0 s) (s_1 s) (s_2 s))
      (m_alpha_x (m_precomputed values)) (m_alpha_y (m_precomputed values)) in
  let fresnel := snd (fresnel_term H values wo m) in
  let layer_probability := saturate (max_value fresnel) in
  let marked := set_value smp fresnel in
  let out := sample H sampling_context values adjoint cosine_mult smp in
  fst (fresnel_term H values wo m) = layer_probability
  /\ m_value marked = fresnel
  /\ ((flt (s_3 s) layer_probability = true
       /\ out = (snd draw, sample_coating H values mdf wo m marked))
      \/
      (flt (s_3 s) layer_probability = false
       /\ out
          = bsdf_sample (m_osl_bsdf values) (snd draw)
              (m_substrate_closure_data values) adjoint false marked)).
Proof.
  intros wo mdf draw s m fresnel layer_probability marked out.
  split; [reflexivity|]. split; [reflexivity|].
  unfold out. rewrite sample_cases.
  fold wo mdf draw s m fresnel layer_probability marked.
  destruct (flt (s_3 s) layer_probability); [left|right]; split; reflexivity.
Qed.

(** C3: in the coating branch the incoming direction is the (renormalised)
    reflection of [wo] about [m].  Finite components [wi.y] and [wo.y] of
    opposite sign, or one of them zero, give [wi.y * wo.y <= 0]; and when
    [wi.y * wo.y <= 0] the call returns a null sample: the incoming
    direction, the probability and the scattering mode of the sample are
    left as they were, only the Fresnel spectrum has been written and the
    four randoms consumed.  Otherwise the sample carries the reflected
    direction.  [sample] is total: no error is raised on either path. *)
Theorem sample_coating_null
  (sampling_context : SamplingContext W) (values : InputValues W)
  (adjoint cosine_mult : bool) (smp : BSDFSample W) :
  let wo :=
    transform_to_local H (m_shading_basis smp) (get_value H (m_outgoing smp)) in
  let mdf := pick_mdf H (m_distribution values) in
  let draw := next2 H (split_in_place H sampling_context 4 1) in
  let s := fst draw in
  let m :=
    mdf_sample mdf wo (mkVector3f (s_0 s) (s_1 s) (s_2 s))
      (m_alpha_x (m_precomputed values)) (m_alpha_y (m_precomputed values)) in
  let fresnel := snd (fresnel_term H values wo m) in
  let layer_probability := saturate (max_value fresnel) in
  let wi := improve_normalization H (reflect H wo m) in
  let out := sample H sampling_context values adjoint cosine_mult smp in
  flt (s_3 s) layer_probability = true ->
  (is_finite (vy wi) = true -> is_finite (vy wo) = true ->
   (flt (vy wi) f0 = true /\ flt f0 (vy wo) = true)
   \/ (flt (vy wo) f0 = true /\ flt f0 (vy wi) = true)
   \/ feq (vy wi) f0 = true \/ feq (vy wo) f0 = true ->
   fle (fmul (vy wi) (vy wo)) f0 = true)
  /\
  (fle (fmul (vy wi) (vy wo)) f0 = true ->
     fst out = snd draw
     /\ m_incoming (snd out) = m_incoming smp
     /\ m_probability (snd out) = m_probability smp
     /\ m_mode (snd out) = m_mode smp
     /\ m_value (snd out) = fresnel)
  /\
  (fle (fmul (vy wi) (vy wo)) f0 = false ->
     out
     = (snd draw,
        compute_reflected_differentials H
          {| m_shading_basis := m_shading_basis smp;
             m_outgoing := m_outgoing smp;
             m_incoming :=
               make_dual H (transform_to_parent H (m_shading_basis smp) wi);
             m_value := evaluate_reflection values mdf wi wo m fresnel;
             m_probability := reflection_pdf H values mdf wo m;
             m_mode := Glossy H |})).
Proof.
  intros wo mdf draw s m fresnel layer_probability wi out Hbranch.
  unfold out. rewrite sample_cases.
  fold wo mdf draw s m fresnel layer_probability. rewrite Hbranch.
  unfold sample_coating. fold wi. cbn [fst snd].
  split; [apply product_nonpositive|].
  split; intros Hy; rewrite Hy; cbn; auto.
Qed.

(** ** The reflection value and its density *)

(** C4: [evaluate_reflection] multiplies every channel of the accumulator
    by [D * G / |4 * wo.y * wi.y|], and sets every channel to exactly zero
    when the denominator compares equal to zero. *)
Theorem evaluate_reflection_scales
  (values : InputValues W) (mdf : MDF) (wi wo m : Vector3f) (value : Spectrum) :
  let denom := fabs (fmul (fmul f4 (vy wo)) (vy wi)) in
  let D :=
    mdf_D mdf m
      (m_alpha_x (m_precomputed values)) (m_alpha_y (m_precomputed values)) in
  let G :=
    mdf_G mdf wi wo m
      (m_alpha_x (m_precomputed values)) (m_alpha_y (m_precomputed values)) in
  evaluate_reflection values mdf wi wo m value
  = map (fun c => if feq denom f0 then f0 else fmul c (fdiv (fmul D G) denom))
      value.
Proof.
  intros denom D G. unfold evaluate_reflection. fold denom. fold D. fold G.
  destruct (feq denom f0); reflexivity.
Qed.

(** C5: the reflection density is [pdf_M(wo, m, alpha_x, alpha_y)] over
    [|4 * (wo . m)|], formed as the product of the Jacobian
    [1 / |4 * (wo . m)|] with [pdf_M], and it is exactly 0 when the dot
    product compares equal to zero. *)
Theorem reflection_pdf_jacobian
  (values : InputValues W) (mdf : MDF) (wo m : Vector3f) :
  let cos_wom := dot H wo m in
  let pdf_M :=
    mdf_pdf mdf wo m
      (m_alpha_x (m_precomputed values)) (m_alpha_y (m_precomputed values)) in
  reflection_pdf H values mdf wo m
  = if feq cos_wom f0 then f0
    else fmul (fdiv f1 (fabs (fmul f4 cos_wom))) pdf_M.
Proof.
  intros cos_wom pdf_M. unfold reflection_pdf. fold cos_wom. fold pdf_M.
  destruct (feq cos_wom f0); [reflexivity|].
  now rewrite fabs_fmul.
Qed.

(** ** [evaluate] and [evaluate_pdf] *)

(** C6: when the mask excludes glossy scattering, or [wi.y * wo.y < 0],
    [evaluate] and [evaluate_pdf] return exactly what the substrate returns
    for the same (outgoing, incoming, mask): no coating term and no
    [1 - layer_weight] factor. *)
Theorem gated_calls_forward_to_substrate
  (values : InputValues W) (adjoint cosine_mult : bool)
  (geometric_normal : Vector3f) (shading_basis : Basis3f W)
  (outgoing incoming : Vector3f) (modes : Z) :
  let wi := transform_to_local H shading_basis incoming in
  let wo := transform_to_local H shading_basis outgoing in
  has_glossy H modes = false \/ flt (fmul (vy wi) (vy wo)) f0 = true ->
  evaluate H values adjoint cosine_mult geometric_normal shading_basis
    outgoing incoming modes
  = bsdf_evaluate (m_osl_bsdf values) (m_substrate_closure_data values)
      adjoint false geometric_normal shading_basis outgoing incoming modes
  /\
  evaluate_pdf H values geometric_normal shading_basis outgoing incoming modes
  = bsdf_evaluate_pdf (m_osl_bsdf values) (m_substrate_closure_data values)
      geometric_normal shading_basis outgoing incoming modes.
Proof.
  intros wi wo Hgate.
  assert (Hg : gated_out H modes wi wo = true).
  { unfold gated_out. destruct Hgate as [-> | ->]; [reflexivity|].
    apply orb_true_r. }
  unfold evaluate, evaluate_pdf. fold wi. fold wo. rewrite Hg. split; reflexivity.
Qed.

(** C7: on the path that is not gated out, with [m] the half vector of
    [wi + wo] oriented to the upper hemisphere and [layer_weight] the
    saturated maximum channel of the Fresnel spectrum at [(wo, m)], the
    substrate is evaluated at the same (outgoing, incoming, mask) with the
    cosine multiplication disabled; the output spectrum is the coating value
    plus [substrate_value * (1 - layer_weight)] and the returned density is
    [layer_weight * reflection_pdf + substrate_density * (1 - layer_weight)]. *)
Theorem evaluate_blends
  (values : InputValues W) (adjoint cosine_mult : bool)
  (geometric_normal : Vector3f) (shading_basis : Basis3f W)
  (outgoing incoming : Vector3f) (modes : Z) :
  let wi := transform_to_local H shading_basis incoming in
  let wo := transform_to_local H shading_basis outgoing in
  let h := normalize H (vadd wi wo) in
  let m := if flt (vy h) f0 then vneg h else h in
  let fresnel := snd (fresnel_term H values wo m) in
  let layer_weight := saturate (max_value fresnel) in
  let mdf := pick_mdf H (m_distribution values) in
  let coating := evaluate_reflection values mdf wi wo m fresnel in
  let sub :=
    bsdf_evaluate (m_osl_bsdf values) (m_substrate_closure_data values)
      adjoint false geometric_normal shading_basis outgoing incoming modes in
  has_glossy H modes = true -> flt (fmul (vy wi) (vy wo)) f0 = false ->
  evaluate H values adjoint cosine_mult geometric_normal shading_basis
    outgoing incoming modes
  = (fadd (fmul layer_weight (reflection_pdf H values mdf wo m))
       (fmul (fst sub) (fsub f1 layer_weight)),
     madd coating (snd sub) (fsub f1 layer_weight)).
Proof.
  intros wi wo h m fresnel layer_weight mdf coating sub Hg Hy.
  unfold evaluate. fold wi. fold wo.
  unfold gated_out. rewrite Hg, Hy. reflexivity.
Qed.

(** C8: if the substrate's [evaluate] and [evaluate_pdf] return equal
    densities for equal arguments, then [evaluate_pdf] returns the density
    [evaluate] returns: same gate, same half vector, same Fresnel-weighted
    blend. *)
Theorem evaluate_pdf_matches_evaluate
  (values : InputValues W) (adjoint cosine_mult : bool)
  (geometric_normal : Vector3f) (shading_basis : Basis3f W)
  (outgoing incoming : Vector3f) (modes : Z) :
  (forall data adj cm gn basis o i md,
     fst (bsdf_evaluate (m_osl_bsdf values) data adj cm gn basis o i md)
     = bsdf_evaluate_pdf (m_osl_bsdf values) data gn basis o i md) ->
  evaluate_pdf H values geometric_normal shading_basis outgoing incoming modes
  = fst (evaluate H values adjoint cosine_mult geometric_normal shading_basis
           outgoing incoming modes).
Proof.
  intros Hsub. unfold evaluate_pdf, evaluate.
  destruct (gated_out H modes _ _); simpl; now rewrite Hsub.
Qed.

(** ** [fresnel_term] *)

(** C10 (amended): in conductor mode the spectrum written by
    [fresnel_term] is the artist-friendly conductor reflectance at
    [(wo, m)] multiplied channel by channel by the reflectance parameter;
    in both modes the functor is called with [wo] mirrored into the upper
    hemisphere ([-wo] when [wo.y < 0]); the returned weight is [saturate]
    of the maximum channel: it never compares below 0 nor above 1, it is a
    NaN exactly when that maximum is a NaN, and it lies in [0,1] whenever
    that maximum is a number. *)
Theorem fresnel_term_weight
  (values : InputValues W) (wo m : Vector3f) :
  let n := mkVector3f f0 f1 f0 in
  let wo' := if flt (vy wo) f0 then vneg wo else wo in
  let conductor :=
    FresnelFriendlyConductorFun H
      (m_normal_reflectance values) (m_edge_tint values) f1 wo' m n in
  let p := fst (fresnel_term H values wo m) in
  let value := snd (fresnel_term H values wo m) in
  value
  = (if m_fresnel_mode values =? Dielectric
     then FresnelDielectricFun H
            (m_reflectance values) f1 (fdiv f1 (m_ior values)) wo' m n
     else spectrum_mul conductor (m_reflectance values))
  /\ (m_fresnel_mode values <> Dielectric ->
      forall i x y,
        nth_error conductor i = Some x ->
        nth_error (m_reflectance values) i = Some y ->
        nth_error value i = Some (fmul x y))
  /\ p = saturate (max_value value)
  /\ is_nan p = is_nan (max_value value)
  /\ flt p f0 = false
  /\ flt f1 p = false
  /\ (is_nan (max_value value) = false -> fle f0 p = true /\ fle p f1 = true).
Proof.
  intros n wo' conductor p value.
  assert (Hv : value
               = (if m_fresnel_mode values =? Dielectric
                  then FresnelDielectricFun H
                         (m_reflectance values) f1 (fdiv f1 (m_ior values)) wo' m n
                  else spectrum_mul conductor (m_reflectance values)))
    by reflexivity.
  assert (Hp : p = saturate (max_value value)) by reflexivity.
  split; [exact Hv|]. split.
  - intros Hmode i x y Hx Hy. rewrite Hv.
    destruct (Z.eqb_spec (m_fresnel_mode values) Dielectric); [contradiction|].
    now apply spectrum_mul_channel.
  - split; [exact Hp|]. rewrite Hp.
    split; [apply saturate_is_nan|].
    split; [apply saturate_not_below|].
    split; [apply saturate_not_above|]. apply saturate_unit.
Qed.

(** ** [prepare_inputs] *)

Lemma prepare_inputs_precomputed
  (shading_context : ShadingContext W) (shading_point : ShadingPoint W)
  (values : InputValues W) :
  m_precomputed (prepare_inputs H shading_context shading_point values)
  = precompute_alpha (m_roughness values) (m_anisotropy values).
Proof. reflexivity. Qed.

(** The buffer is handed to every call as read-only data. *)
Lemma invoke_all_keeps_buffer (data : InputValues W) (calls : list (Call W)) :
  invoke_all H data calls = data.
Proof.
  unfold invoke_all. induction calls as [|c calls IH]; [reflexivity|].
  simpl. destruct c; exact IH.
Qed.

(** C1 (amended): for every roughness [r] and anisotropy [a],
    [prepare_inputs] sets the widths by the fixed remap: [a = 0.5] gives
    [alpha_x = alpha_y = r²]; otherwise, with [t = (2 a - 1)²], [a < 0.5]
    gives [alpha_x = lerp(r², 1, t)] and [alpha_y = r²], and [a > 0.5] gives
    [alpha_y = lerp(r², 1, t)] and [alpha_x = r²].  Whenever [r²] is finite
    in single precision, [a = 0] gives [alpha_x = 1], [alpha_y = r²] and
    [a = 1] gives [alpha_y = 1], [alpha_x = r²], exactly; every roughness in
    (0,1] has a finite square. *)
Theorem prepare_inputs_alpha_remap
  (shading_context : ShadingContext W) (shading_point : ShadingPoint W)
  (values : InputValues W) :
  let r := m_roughness values in
  let a := m_anisotropy values in
  let t := square (fsub (fmul f2 a) f1) in
  let pre :=
    m_precomputed (prepare_inputs H shading_context shading_point values) in
  (feq a fhalf = true ->
     m_alpha_x pre = square r /\ m_alpha_y pre = square r)
  /\ (flt a fhalf = true ->
        m_alpha_x pre = lerp (square r) f1 t /\ m_alpha_y pre = square r)
  /\ (flt fhalf a = true ->
        m_alpha_y pre = lerp (square r) f1 t /\ m_alpha_x pre = square r)
  /\ (is_finite (square r) = true -> feq a f0 = true ->
        m_alpha_x pre = f1 /\ m_alpha_y pre = square r)
  /\ (is_finite (square r) = true -> feq a f1 = true ->
        m_alpha_y pre = f1 /\ m_alpha_x pre = square r)
  /\ (valid32 r = true -> flt f0 r = true -> fle r f1 = true ->
        is_finite (square r) = true).
Proof.
  intros r a t pre.
  assert (Hpre : pre = precompute_alpha r a) by reflexivity.
  rewrite Hpre. unfold precompute_alpha. fold t. unfold fneq.
  split; [|split; [|split; [|split; [|split]]]].
  - intros Heq. rewrite Heq. simpl. auto.
  - intros Hlt. rewrite (flt_not_feq _ _ Hlt), Hlt. simpl. auto.
  - intros Hgt. rewrite (feq_sym a fhalf), (flt_not_feq _ _ Hgt).
    rewrite (flt_asym _ _ Hgt). simpl. auto.
  - intros Hfin Ha. destruct (feq_zero_inv a Ha) as [s Hs].
    assert (Ht : t = f1) by (unfold t; rewrite Hs; apply square_of_zero_remap).
    rewrite Ht, Hs. destruct s; simpl; split; auto using lerp_to_one.
  - intros Hfin Ha. apply feq_finite_inv in Ha.
    assert (Ht : t = f1) by (unfold t; rewrite Ha; apply square_of_one_remap).
    rewrite Ht, Ha. simpl. split; auto using lerp_to_one.
  - intros Hv H0 H1.
    destruct (unit_roughness r Hv H0 H1) as [m [e [Hr [Hb Hn]]]].
    rewrite Hr. apply Unit01_finite.
    apply (square_unit (S754_finite false m e) _ (conj Hb eq_refl) Hn).
Qed.

(** C9 (amended): for every well-formed roughness in (0,1] and anisotropy
    in [0,1], the widths left by [prepare_inputs] lie in [0,1]; they are
    positive, hence in (0,1], when the roughness exceeds [2^-75] (below
    that, [r²] underflows to zero); and no later [sample], [evaluate] or
    [evaluate_pdf] call changes them. *)
Theorem prepare_inputs_alpha_range
  (shading_context : ShadingContext W) (shading_point : ShadingPoint W)
  (values : InputValues W) (calls : list (Call W)) :
  let r := m_roughness values in
  let a := m_anisotropy values in
  let prepared := prepare_inputs H shading_context shading_point values in
  let alpha_x := m_alpha_x (m_precomputed prepared) in
  let alpha_y := m_alpha_y (m_precomputed prepared) in
  valid32 r = true -> valid32 a = true ->
  flt f0 r = true -> fle r f1 = true ->
  fle f0 a = true -> fle a f1 = true ->
  (fle f0 alpha_x = true /\ fle alpha_x f1 = true)
  /\ (fle f0 alpha_y = true /\ fle alpha_y f1 = true)
  /\ (flt (fpow2 (-75)) r = true ->
        flt f0 alpha_x = true /\ flt f0 alpha_y = true)
  /\ m_precomputed (invoke_all H prepared calls) = m_precomputed prepared.
Proof.
  intros r a prepared alpha_x alpha_y Hvr Hva Hr0 Hr1 Ha0 Ha1.
  unfold alpha_x, alpha_y, prepared. rewrite prepare_inputs_precomputed.
  fold r. fold a.
  destruct (precompute_alpha_unit r a Hvr Hva Hr0 Hr1 Ha0 Ha1) as [Hx Hy].
  split; [now apply Unit01_fle|]. split; [now apply Unit01_fle|]. split.
  - intros Hbig.
    destruct (precompute_alpha_unit_pos r a Hvr Hva Hbig Hr1 Ha0 Ha1)
      as [Hpx Hpy].
    split; now apply UnitPos_flt.
  - now rewrite invoke_all_keeps_buffer.
Qed.

End Layer.

(* ================================================================= *)
(** * Part IV: the theorems at concrete inputs *)
(* ================================================================= *)

(** Roughness [2^64]: its square overflows, and with anisotropy 0 the
    width [alpha_x] is a NaN, not 1. *)
Lemma alpha_remap_overflow_counterexample :
  let values := ref_values (fpow2 64) f0 Dielectric [f1; f1; f1] in
  let pre := m_precomputed (prepare_inputs ref_host tt tt values) in
  feq (m_anisotropy values) f0 = true
  /\ is_finite (m_roughness values) = true
  /\ square (m_roughness values) = S754_infinity false
  /\ m_alpha_x pre = S754_nan
  /\ m_alpha_x pre <> f1.
Proof. repeat split. discriminate. Qed.

Lemma prepare_inputs_alpha_remap_witness :
  let values := ref_values fhalf f0 Dielectric [f1; f1; f1] in
  let pre := m_precomputed (prepare_inputs ref_host tt tt values) in
  is_finite (square (m_roughness values)) = true
  /\ feq (m_anisotropy values) f0 = true
  /\ m_alpha_x pre = f1
  /\ m_alpha_y pre = square (m_roughness values).
Proof.
  split; [reflexivity|]. split; [reflexivity|].
  apply (prepare_inputs_alpha_remap ref_types ref_host tt tt
           (ref_values fhalf f0 Dielectric [f1; f1; f1])); reflexivity.
Defined.

(** Roughness [2^-76], in (0,1]: its square underflows to zero, and with
    anisotropy 0.5 both widths are 0, outside (0,1]. *)
Lemma alpha_range_underflow_counterexample :
  let r := fpow2 (-76) in
  let values := ref_values r fhalf Dielectric [f1; f1; f1] in
  let pre := m_precomputed (prepare_inputs ref_host tt tt values) in
  valid32 r = true /\ flt f0 r = true /\ fle r f1 = true
  /\ fle f0 fhalf = true /\ fle fhalf f1 = true
  /\ m_alpha_x pre = f0 /\ m_alpha_y pre = f0
  /\ flt f0 (m_alpha_x pre) = false /\ flt f0 (m_alpha_y pre) = false.
Proof. repeat split. Qed.

Lemma prepare_inputs_alpha_range_witness :
  let values := ref_values fhalf f1 Dielectric [f1; f1; f1] in
  let prepared := prepare_inputs ref_host tt tt values in
  let calls :=
    [@CallEvaluatePdf ref_types up tt up up 2;
     @CallSample ref_types 0%nat false true (ref_sample up)] in
  (valid32 fhalf = true /\ valid32 f1 = true
   /\ flt f0 fhalf = true /\ fle fhalf f1 = true
   /\ fle f0 f1 = true /\ fle f1 f1 = true)
  /\ (fle f0 (m_alpha_x (m_precomputed prepared)) = true
      /\ fle (m_alpha_x (m_precomputed prepared)) f1 = true)
  /\ (fle f0 (m_alpha_y (m_precomputed prepared)) = true
      /\ fle (m_alpha_y (m_precomputed prepared)) f1 = true)
  /\ (flt (fpow2 (-75)) fhalf = true ->
        flt f0 (m_alpha_x (m_precomputed prepared)) = true
        /\ flt f0 (m_alpha_y (m_precomputed prepared)) = true)
  /\ m_precomputed (invoke_all ref_host prepared calls)
     = m_precomputed prepared.
Proof.
  split; [repeat split|].
  apply (prepare_inputs_alpha_range ref_types ref_host tt tt
           (ref_values fhalf f1 Dielectric [f1; f1; f1])); reflexivity.
Defined.

(** A grazing outgoing direction: the reflected direction has [wi.y = 0],
    the coating branch returns a null sample. *)
Lemma sample_coating_null_witness :
  let values := ref_values fhalf fhalf Dielectric [f1; f1; f1] in
  let smp := ref_sample (mkVector3f f1 f0 f0) in
  let out := sample ref_host 0%nat values false true smp in
  fst out = 1%nat
  /\ m_incoming (snd out) = m_incoming smp
  /\ m_probability (snd out) = m_probability smp
  /\ m_mode (snd out) = m_mode smp
  /\ m_value (snd out) = [f1; f1; f1].
Proof.
  apply (sample_coating_null ref_types ref_host 0%nat
           (ref_values fhalf fhalf Dielectric [f1; f1; f1]) false true
           (ref_sample (mkVector3f f1 f0 f0))); reflexivity.
Defined.

(** A mask without the glossy bit. *)
Lemma gated_calls_forward_to_substrate_witness :
  let values := ref_values fhalf fhalf Dielectric [f1; f1; f1] in
  has_glossy ref_host 1 = false
  /\ evaluate ref_host values false true up tt up up 1
     = bsdf_evaluate ref_substrate [] false false up tt up up 1
  /\ evaluate_pdf ref_host values up tt up up 1
     = bsdf_evaluate_pdf ref_substrate [] up tt up up 1.
Proof.
  split; [reflexivity|].
  apply (gated_calls_forward_to_substrate ref_types ref_host
           (ref_values fhalf fhalf Dielectric [f1; f1; f1])
           false true up tt up up 1).
  left. reflexivity.
Defined.

(** Both directions above the surface, under a mask that allows glossy
    scattering. *)
Lemma evaluate_blends_witness :
  let values := ref_values fhalf fhalf Metallic [fhalf; f1; fhalf] in
  has_glossy ref_host 2 = true
  /\ flt (fmul (vy up) (vy up)) f0 = false
  /\ fst (evaluate ref_host values false true up tt up up 2)
     = fadd (fmul fhalf (reflection_pdf ref_host values ref_mdf up (vadd up up)))
         (fmul f1 (fsub f1 fhalf)).
Proof.
  split; [reflexivity|]. split; [reflexivity|].
  rewrite (evaluate_blends ref_types ref_host
             (ref_values fhalf fhalf Metallic [fhalf; f1; fhalf])
             false true up tt up up 2); reflexivity.
Defined.

Lemma evaluate_pdf_matches_evaluate_witness :
  let values := ref_values fhalf fhalf Metallic [fhalf; f1; fhalf] in
  evaluate_pdf ref_host values up tt up up 2
  = fst (evaluate ref_host values false true up tt up up 2).
Proof.
  apply (evaluate_pdf_matches_evaluate ref_types ref_host
           (ref_values fhalf fhalf Metallic [fhalf; f1; fhalf])
           false true up tt up up 2).
  intros. reflexivity.
Defined.

(** Conductor mode with a NaN in the first channel of the reflectance
    parameter: the product written to that channel is a NaN, the maximum
    channel and the returned weight are NaN, and the weight is neither
    [>= 0] nor [<= 1]. *)
Lemma fresnel_term_nan_counterexample :
  let values := ref_values fhalf fhalf Metallic [S754_nan; f1; f1] in
  let p := fst (fresnel_term ref_host values up up) in
  snd (fresnel_term ref_host values up up) = [S754_nan; fhalf; fhalf]
  /\ p = S754_nan
  /\ fle f0 p = false
  /\ fle p f1 = false.
Proof. repeat split. Qed.

(** Conductor mode with an outgoing direction below the surface. *)
Lemma fresnel_term_weight_witness :
  let values := ref_values fhalf fhalf Metallic [fhalf; f1; fhalf] in
  let p := fst (fresnel_term ref_host values down up) in
  is_nan (max_value (snd (fresnel_term ref_host values down up))) = false
  /\ snd (fresnel_term ref_host values down up)
     = [fmul fhalf fhalf; fmul fhalf f1; fmul fhalf fhalf]
  /\ fle f0 p = true /\ fle p f1 = true.
Proof.
  split; [reflexivity|]. split; [reflexivity|].
  apply (fresnel_term_weight ref_types ref_host
           (ref_values fhalf fhalf Metallic [fhalf; f1; fhalf]) down up).
  reflexivity.
Defined.

(* ================================================================= *)
(** * Part V: further properties of the layer *)
(* ================================================================= *)

Section More.

Variable W : HostTypes.
Variable H : Host W.

Lemma sample_unfold
  (sampling_context : SamplingContext W) (values : InputValues W)
  (adjoint cosine_mult : bool) (smp : BSDFSample W) :
  let wo :=
    transform_to_local H (m_shading_basis smp) (get_value H (m_outgoing smp)) in
  let mdf := pick_mdf H (m_distribution values) in
  let draw := next2 H (split_in_place H sampling_context 4 1) in
  let s := fst draw in
  let m :=
    mdf_sample mdf wo (mkVector3f (s_0 s) (s_1 s) (s_2 s))
      (m_alpha_x (m_precomputed values)) (m_alpha_y (m_precomputed values)) in
  let ft := fresnel_term H values wo m in
  sample H sampling_context values adjoint cosine_mult smp
  = if flt (s_3 s) (fst ft)
    then (snd draw, sample_coating H values mdf wo m (set_value smp (snd ft)))
    else bsdf_sample (m_osl_bsdf values) (snd draw)
           (m_substrate_closure_data values) adjoint false
           (set_value smp (snd ft)).
Proof.
  intros wo mdf draw s m ft.
  unfold sample. fold wo. fold mdf. fold draw.
  unfold ft, m, s.
  destruct draw as [s' ctx']. cbn [fst snd].
  destruct (fresnel_term H values wo _) as [p value].
  reflexivity.
Qed.

(** X1: [half_reflection_vector] returns the normalised sum of the two
    directions or its opposite, and the [y] component of the result never
    compares below zero; when the [y] of the normalised sum is a number,
    the [y] of the result is [>= 0]. *)
Theorem half_reflection_vector_upper (wi wo : Vector3f) :
  let h := normalize H (vadd wi wo) in
  let m := half_reflection_vector H wi wo in
  (m = h \/ m = vneg h)
  /\ flt (vy m) f0 = false
  /\ (is_nan (vy h) = false -> fle f0 (vy m) = true).
Proof.
  intros h m. unfold m, half_reflection_vector. fold h.
  destruct (flt (vy h) f0) eqn:E.
  - split; [now right|]. cbn. split.
    + change (SFopp (vy h)) with (fneg (vy h)).
      rewrite flt_fneg_zero. now apply flt_asym.
    + intros _. now apply fle_zero_fneg.
  - split; [now left|]. split; [exact E|].
    intros Hn. now apply not_flt_fle.
Qed.

(** X2: exchanging the incoming and the outgoing direction changes
    neither the half vector nor the test that sends [evaluate] and
    [evaluate_pdf] to the substrate alone: single-precision addition and
    multiplication commute. *)
Theorem exchange_symmetry (wi wo : Vector3f) (modes : Z) :
  half_reflection_vector H wi wo = half_reflection_vector H wo wi
  /\ gated_out H modes wi wo = gated_out H modes wo wi.
Proof.
  unfold half_reflection_vector, gated_out.
  now rewrite (vadd_comm wi wo), (fmul_comm (vy wi) (vy wo)).
Qed.

(** X3: for an outgoing direction off the horizon ([wo.y < 0] or
    [wo.y > 0]), [fresnel_term] returns the same weight and the same
    spectrum for [wo] and for [-wo]. *)
Theorem fresnel_term_mirror (values : InputValues W) (wo m : Vector3f) :
  flt (vy wo) f0 = true \/ flt f0 (vy wo) = true ->
  fresnel_term H values (vneg wo) m = fresnel_term H values wo m.
Proof.
  intros Hy.
  assert (Hflip :
    (if flt (vy (vneg wo)) f0 then vneg (vneg wo) else vneg wo)
    = (if flt (vy wo) f0 then vneg wo else wo)).
  { change (vy (vneg wo)) with (fneg (vy wo)). rewrite flt_fneg_zero.
    destruct Hy as [Hlt|Hgt].
    - rewrite Hlt, (flt_asym _ _ Hlt). reflexivity.
    - rewrite Hgt, (flt_asym _ _ Hgt). apply vneg_involutive. }
  unfold fresnel_term. now rewrite Hflip.
Qed.

(** X4: [reflection_pdf] never compares below zero when the density of
    the distribution at [(wo, m)] does not: the Jacobian [1 / (4 |wo . m|)]
    is never negative, whatever the dot product (tiny, huge or NaN). *)
Theorem reflection_pdf_not_negative
  (values : InputValues W) (mdf : MDF) (wo m : Vector3f) :
  flt (mdf_pdf mdf wo m
         (m_alpha_x (m_precomputed values)) (m_alpha_y (m_precomputed values)))
      f0 = false ->
  flt (reflection_pdf H values mdf wo m) f0 = false.
Proof.
  intros Hp. unfold reflection_pdf.
  destruct (feq (dot H wo m) f0); [reflexivity|].
  apply fmul_not_below; [|exact Hp].
  apply reciprocal_not_below, fsign_fmul_fabs.
Qed.

Lemma blend_not_below (x r s : float) :
  valid32 x = true -> flt r f0 = false -> flt s f0 = false ->
  flt (fadd (fmul (saturate x) r) (fmul s (fsub f1 (saturate x)))) f0 = false.
Proof.
  intros Hx Hr Hs. apply fadd_not_below; apply fmul_not_below; auto.
  - apply saturate_not_below.
  - now apply substrate_weight_not_below.
Qed.

(** X5: when the channels of the Fresnel spectrum are well-formed floats
    and neither the distribution's density nor the substrate's densities
    compare below zero, the densities returned by [evaluate_pdf] and by
    [evaluate] do not compare below zero, on the gated and on the blended
    path. *)
Theorem density_not_negative
  (values : InputValues W) (adjoint cosine_mult : bool)
  (geometric_normal : Vector3f) (shading_basis : Basis3f W)
  (outgoing incoming : Vector3f) (modes : Z) :
  let wi := transform_to_local H shading_basis incoming in
  let wo := transform_to_local H shading_basis outgoing in
  let m := half_reflection_vector H wi wo in
  let mdf := pick_mdf H (m_distribution values) in
  forallb valid32 (snd (fresnel_term H values wo m)) = true ->
  flt (mdf_pdf mdf wo m
         (m_alpha_x (m_precomputed values)) (m_alpha_y (m_precomputed values)))
      f0 = false ->
  flt (bsdf_evaluate_pdf (m_osl_bsdf values) (m_substrate_closure_data values)
         geometric_normal shading_basis outgoing incoming modes) f0 = false ->
  flt (fst (bsdf_evaluate (m_osl_bsdf values) (m_substrate_closure_data values)
              adjoint false geometric_normal shading_basis outgoing incoming
              modes)) f0 = false ->
  flt (evaluate_pdf H values geometric_normal shading_basis outgoing incoming
         modes) f0 = false
  /\ flt (fst (evaluate H values adjoint cosine_mult geometric_normal
                 shading_basis outgoing incoming modes)) f0 = false.
Proof.
  intros wi wo m mdf Hv Hpdf Hsp Hse.
  assert (Hr : flt (reflection_pdf H values mdf wo m) f0 = false).
  { unfold reflection_pdf. destruct (feq (dot H wo m) f0); [reflexivity|].
    apply fmul_not_below; [|exact Hpdf].
    apply reciprocal_not_below, fsign_fmul_fabs. }
  pose proof (max_value_valid _ Hv) as Hmv.
  unfold evaluate_pdf, evaluate. fold wi. fold wo.
  destruct (gated_out H modes wi wo); [split; assumption|].
  fold m. fold mdf. cbn [fst snd].
  split; unfold fresnel_term at 1 2; cbn [fst]; now apply blend_not_below.
Qed.

Lemma evaluate_reflection_not_below
  (values : InputValues W) (mdf : MDF) (wi wo m : Vector3f) (value : Spectrum) :
  Forall (fun c => flt c f0 = false) value ->
  flt (mdf_D mdf m
         (m_alpha_x (m_precomputed values)) (m_alpha_y (m_precomputed values)))
      f0 = false ->
  flt (mdf_G mdf wi wo m
         (m_alpha_x (m_precomputed values)) (m_alpha_y (m_precomputed values)))
      f0 = false ->
  Forall (fun c => flt c f0 = false)
    (evaluate_reflection values mdf wi wo m value).
Proof.
  intros Hv HD HG. unfold evaluate_reflection.
  destruct (feq _ f0).
  - unfold spectrum_set. apply Forall_map.
    apply Forall_forall. intros; reflexivity.
  - unfold spectrum_scale. apply Forall_map.
    eapply Forall_impl; [|exact Hv]. cbn beta. intros c Hc.
    apply fmul_not_below; [exact Hc|].
    apply fdiv_not_below; [now apply fmul_not_below|apply fsign_fabs].
Qed.

(** X6: when the channels of the Fresnel spectrum are well-formed and not
    below zero, [D] and [G] are not below zero and no channel of the
    substrate's value is below zero, no channel of the spectrum returned by
    [evaluate] compares below zero. *)
Theorem value_not_negative
  (values : InputValues W) (adjoint cosine_mult : bool)
  (geometric_normal : Vector3f) (shading_basis : Basis3f W)
  (outgoing incoming : Vector3f) (modes : Z) :
  let wi := transform_to_local H shading_basis incoming in
  let wo := transform_to_local H shading_basis outgoing in
  let m := half_reflection_vector H wi wo in
  let mdf := pick_mdf H (m_distribution values) in
  let fresnel := snd (fresnel_term H values wo m) in
  let substrate :=
    snd (bsdf_evaluate (m_osl_bsdf values) (m_substrate_closure_data values)
           adjoint false geometric_normal shading_basis outgoing incoming
           modes) in
  forallb valid32 fresnel = true ->
  Forall (fun c => flt c f0 = false) fresnel ->
  flt (mdf_D mdf m
         (m_alpha_x (m_precomputed values)) (m_alpha_y (m_precomputed values)))
      f0 = false ->
  flt (mdf_G mdf wi wo m
         (m_alpha_x (m_precomputed values)) (m_alpha_y (m_precomputed values)))
      f0 = false ->
  Forall (fun c => flt c f0 = false) substrate ->
  Forall (fun c => flt c f0 = false)
    (snd (evaluate H values adjoint cosine_mult geometric_normal shading_basis
            outgoing incoming modes)).
Proof.
  intros wi wo m mdf fresnel substrate Hv Hf HD HG Hs.
  pose proof (max_value_valid _ Hv) as Hmv.
  unfold evaluate. fold wi. fold wo.
  destruct (gated_out H modes wi wo); [exact Hs|].
  fold m. fold mdf. cbn [snd].
  apply madd_not_below; [|exact Hs|].
  - now apply evaluate_reflection_not_below.
  - unfold fresnel_term. cbn [fst]. now apply substrate_weight_not_below.
Qed.

(** X7: when the channels of the Fresnel spectrum are well-formed and
    their maximum is a number, the substrate weight [1 - layer_weight] of
    the blend lies in [0,1]; it is exactly 1 when the layer weight compares
    equal to 0 and exactly 0 when the layer weight is 1. *)
Theorem blend_weights_unit (values : InputValues W) (wo m : Vector3f) :
  let value := snd (fresnel_term H values wo m) in
  let layer_weight := fst (fresnel_term H values wo m) in
  let substrate_weight := fsub f1 layer_weight in
  forallb valid32 value = true -> is_nan (max_value value) = false ->
  fle f0 substrate_weight = true /\ fle substrate_weight f1 = true
  /\ (feq layer_weight f0 = true -> substrate_weight = f1)
  /\ (feq layer_weight f1 = true -> substrate_weight = f0).
Proof.
  intros value layer_weight substrate_weight Hv Hn.
  assert (Hw : layer_weight = saturate (max_value value)) by reflexivity.
  pose proof (max_value_valid _ Hv) as Hmv.
  assert (Hu : Unit01 substrate_weight).
  { unfold substrate_weight. rewrite Hw. now apply substrate_weight_unit. }
  destruct (Unit01_fle _ Hu) as [H0 H1].
  split; [exact H0|]. split; [exact H1|]. split.
  - intros Hz. destruct (feq_zero_inv _ Hz) as [s Hs].
    unfold substrate_weight. now rewrite Hs.
  - intros H1'. apply feq_finite_inv in H1'.
    unfold substrate_weight. now rewrite H1'.
Qed.

(** X8: on the blended path, with finite well-formed densities: when the
    layer weight compares equal to 0 the density returned by [evaluate_pdf]
    is the substrate's density, and when the layer weight is 1 it is the
    coating's [reflection_pdf] (up to the sign of a zero density). *)
Theorem density_limits
  (values : InputValues W) (geometric_normal : Vector3f)
  (shading_basis : Basis3f W) (outgoing incoming : Vector3f) (modes : Z) :
  let wi := transform_to_local H shading_basis incoming in
  let wo := transform_to_local H shading_basis outgoing in
  let m := half_reflection_vector H wi wo in
  let layer_weight := fst (fresnel_term H values wo m) in
  let coating :=
    reflection_pdf H values (pick_mdf H (m_distribution values)) wo m in
  let substrate :=
    bsdf_evaluate_pdf (m_osl_bsdf values) (m_substrate_closure_data values)
      geometric_normal shading_basis outgoing incoming modes in
  let density :=
    evaluate_pdf H values geometric_normal shading_basis outgoing incoming
      modes in
  has_glossy H modes = true -> flt (fmul (vy wi) (vy wo)) f0 = false ->
  valid32 coating = true -> is_finite coating = true ->
  valid32 substrate = true -> is_finite substrate = true ->
  (feq layer_weight f0 = true ->
     (feq substrate f0 = false -> density = substrate)
     /\ (feq substrate f0 = true -> feq density f0 = true))
  /\ (feq layer_weight f1 = true ->
        (feq coating f0 = false -> density = coating)
        /\ (feq coating f0 = true -> feq density f0 = true)).
Proof.
  intros wi wo m layer_weight coating substrate density
    Hg Hy Hvc Hfc Hvs Hfs.
  assert (Hd : density
               = fadd (fmul layer_weight coating)
                   (fmul substrate (fsub f1 layer_weight))).
  { unfold density, evaluate_pdf. fold wi. fold wo.
    unfold gated_out. rewrite Hg, Hy. reflexivity. }
  rewrite Hd. split; intros Hw.
  - now apply blend_transparent.
  - now apply blend_opaque.
Qed.

(** X9: [sample] takes the substrate branch whenever the layer
    probability is a NaN, the fourth random is a NaN, or the layer
    probability compares equal to 0 and the fourth random is not below 0;
    the substrate receives the advanced context and the sample holding the
    Fresnel spectrum. *)
Theorem sample_degenerate_probability
  (sampling_context : SamplingContext W) (values : InputValues W)
  (adjoint cosine_mult : bool) (smp : BSDFSample W) :
  let wo :=
    transform_to_local H (m_shading_basis smp) (get_value H (m_outgoing smp)) in
  let mdf := pick_mdf H (m_distribution values) in
  let draw := next2 H (split_in_place H sampling_context 4 1) in
  let s := fst draw in
  let m :=
    mdf_sample mdf wo (mkVector3f (s_0 s) (s_1 s) (s_2 s))
      (m_alpha_x (m_precomputed values)) (m_alpha_y (m_precomputed values)) in
  let layer_probability := fst (fresnel_term H values wo m) in
  let fresnel := snd (fresnel_term H values wo m) in
  is_nan layer_probability = true
  \/ is_nan (s_3 s) = true
  \/ (feq layer_probability f0 = true /\ flt (s_3 s) f0 = false) ->
  sample H sampling_context values adjoint cosine_mult smp
  = bsdf_sample (m_osl_bsdf values) (snd draw)
      (m_substrate_closure_data values) adjoint false (set_value smp fresnel).
Proof.
  intros wo mdf draw s m layer_probability fresnel Hc.
  rewrite sample_unfold. fold wo mdf draw s m layer_probability fresnel.
  replace (flt (s_3 s) layer_probability) with false; [reflexivity|].
  symmetry. destruct Hc as [Hn|[Hn|[Hz Hs]]].
  - now apply flt_nan_r.
  - now apply flt_nan_l.
  - now apply flt_zero_weight.
Qed.

(** X10: the enumerators are not range-checked, each on its own: whatever
    the Fresnel mode, a distribution other than [Beckmann] behaves as
    [GGX]; whatever the distribution, a Fresnel mode other than
    [Dielectric] behaves as [Metallic]; in [sample], [evaluate] and
    [evaluate_pdf]. *)
Theorem unknown_enumerators
  (values : InputValues W) (distribution fresnel_mode : Z)
  (sampling_context : SamplingContext W) (smp : BSDFSample W)
  (adjoint cosine_mult : bool)
  (geometric_normal : Vector3f) (shading_basis : Basis3f W)
  (outgoing incoming : Vector3f) (modes : Z) :
  let given := with_enumerators values distribution fresnel_mode in
  let as_ggx := with_enumerators values GGX fresnel_mode in
  let as_metallic := with_enumerators values distribution Metallic in
  (distribution <> Beckmann ->
     sample H sampling_context given adjoint cosine_mult smp
     = sample H sampling_context as_ggx adjoint cosine_mult smp
     /\ evaluate H given adjoint cosine_mult geometric_normal shading_basis
          outgoing incoming modes
        = evaluate H as_ggx adjoint cosine_mult geometric_normal shading_basis
            outgoing incoming modes
     /\ evaluate_pdf H given geometric_normal shading_basis outgoing incoming
          modes
        = evaluate_pdf H as_ggx geometric_normal shading_basis outgoing
            incoming modes)
  /\ (fresnel_mode <> Dielectric ->
        sample H sampling_context given adjoint cosine_mult smp
        = sample H sampling_context as_metallic adjoint cosine_mult smp
        /\ evaluate H given adjoint cosine_mult geometric_normal shading_basis
             outgoing incoming modes
           = evaluate H as_metallic adjoint cosine_mult geometric_normal
               shading_basis outgoing incoming modes
        /\ evaluate_pdf H given geometric_normal shading_basis outgoing
             incoming modes
           = evaluate_pdf H as_metallic geometric_normal shading_basis
               outgoing incoming modes).
Proof.
  intros given as_ggx as_metallic.
  assert (Hgo : forall other : InputValues W,
             pick_mdf H (m_distribution given)
             = pick_mdf H (m_distribution other) ->
             (forall wo m,
                fresnel_term H given wo m = fresnel_term H other wo m) ->
             m_osl_bsdf other = m_osl_bsdf given ->
             m_substrate_closure_data other = m_substrate_closure_data given ->
             m_precomputed other = m_precomputed given ->
             sample H sampling_context given adjoint cosine_mult smp
             = sample H sampling_context other adjoint cosine_mult smp
             /\ evaluate H given adjoint cosine_mult geometric_normal
                  shading_basis outgoing incoming modes
                = evaluate H other adjoint cosine_mult geometric_normal
                    shading_basis outgoing incoming modes
             /\ evaluate_pdf H given geometric_normal shading_basis outgoing
                  incoming modes
                = evaluate_pdf H other geometric_normal shading_basis
                    outgoing incoming modes).
  { intros other Hmdf Hft Hb Hd Hp. split; [|split].
    - rewrite !sample_unfold. rewrite Hmdf, !Hft, Hb, Hd, Hp.
      unfold sample_coating, evaluate_reflection, reflection_pdf.
      rewrite Hp. reflexivity.
    - unfold evaluate. rewrite Hmdf, !Hft, Hb, Hd.
      unfold evaluate_reflection, reflection_pdf. rewrite Hp. reflexivity.
    - unfold evaluate_pdf. rewrite Hmdf, !Hft, Hb, Hd.
      unfold reflection_pdf. rewrite Hp. reflexivity. }
  split.
  - intros Hd. apply Hgo; try reflexivity.
    unfold pick_mdf, given, as_ggx. cbn.
    destruct (Z.eqb_spec distribution Beckmann); [contradiction|reflexivity].
  - intros Hf. apply Hgo; try reflexivity.
    intros wo m. unfold fresnel_term, given, as_metallic. cbn.
    destruct (Z.eqb_spec fresnel_mode Dielectric); [contradiction|].
    reflexivity.
Qed.

(** X11: [prepare_inputs] does not validate its inputs: a NaN roughness
    makes both widths NaN, and a NaN anisotropy leaves [alpha_x = r²] and
    makes [alpha_y] a NaN. *)
Theorem prepare_inputs_nan
  (shading_context : ShadingContext W) (shading_point : ShadingPoint W)
  (values : InputValues W) :
  let r := m_roughness values in
  let a := m_anisotropy values in
  let pre :=
    m_precomputed (prepare_inputs H shading_context shading_point values) in
  (is_nan r = true -> m_alpha_x pre = S754_nan /\ m_alpha_y pre = S754_nan)
  /\ (is_nan a = true -> m_alpha_x pre = square r /\ m_alpha_y pre = S754_nan).
Proof.
  intros r a pre.
  assert (Hpre : pre = precompute_alpha r a) by reflexivity.
  rewrite Hpre. unfold precompute_alpha. split.
  - intros Hr. destruct r; try discriminate.
    change (square S754_nan) with S754_nan.
    destruct (fneq a fhalf); [|now split].
    destruct (flt a fhalf); cbn; rewrite lerp_nan_start; now split.
  - intros Ha. destruct a; try discriminate. cbn. now split.
Qed.

(** X12: at grazing incidence ([wo.y] or [wi.y] compares equal to 0, with
    [4 * wo.y] and [wi.y] finite) [evaluate_reflection] sets every channel
    to exactly zero and keeps the number of channels. *)
Theorem evaluate_reflection_grazing
  (values : InputValues W) (mdf : MDF) (wi wo m : Vector3f) (value : Spectrum) :
  is_finite (fmul f4 (vy wo)) = true -> is_finite (vy wi) = true ->
  feq (vy wo) f0 = true \/ feq (vy wi) f0 = true ->
  evaluate_reflection values mdf wi wo m value = map (fun _ => f0) value.
Proof.
  intros Hwo Hwi Hz.
  assert (Hd : feq (fabs (fmul (fmul f4 (vy wo)) (vy wi))) f0 = true).
  { destruct Hz as [Hz|Hz]; destruct (feq_zero_inv _ Hz) as [s Hs].
    - rewrite Hs. destruct (vy wi) as [sy|sy| |sy my ey]; try discriminate;
        reflexivity.
    - rewrite Hs. destruct (fmul f4 (vy wo)) as [sy|sy| |sy my ey];
        try discriminate; reflexivity. }
  unfold evaluate_reflection. now rewrite Hd.
Qed.

(** The loop of [inject_children] after [k] iterations. *)
Lemma inject_children_prefix (bsdf : BSDF W) (c : ClosureData W) :
  (forall c i v,
     get_num_closures H (set_closure_input_values H c i v)
     = get_num_closures H c) ->
  (forall c i v j,
     get_closure_type H (set_closure_input_values H c i v) j
     = get_closure_type H c j) ->
  (forall c i v,
     (i < get_num_closures H c)%nat ->
     get_closure_input_values H (set_closure_input_values H c i v) i = v) ->
  (forall c i v j,
     i <> j ->
     get_closure_input_values H (set_closure_input_values H c i v) j
     = get_closure_input_values H c j) ->
  forall k : nat,
  (k <= get_num_closures H c)%nat ->
  let c' :=
    fold_left
      (fun c i =>
         let cid := get_closure_type H c i in
         if FirstLayeredClosure H <=? cid
         then set_closure_input_values H c i
                (inject_layered_closure_values H cid bsdf
                   (get_closure_input_values H c i))
         else c)
      (seq 0 k) c in
  get_num_closures H c' = get_num_closures H c
  /\ (forall i, get_closure_type H c' i = get_closure_type H c i)
  /\ (forall i,
        get_closure_input_values H c' i
        = if (i <? k)%nat && (FirstLayeredClosure H <=? get_closure_type H c i)
          then inject_layered_closure_values H (get_closure_type H c i) bsdf
                 (get_closure_input_values H c i)
          else get_closure_input_values H c i).
Proof.
  intros Hnum Htype Hsame Hother k.
  induction k as [|k IH]; intros Hk.
  - cbn. repeat split; reflexivity.
  - cbv zeta. rewrite seq_S, fold_left_app. cbn [Nat.add fold_left].
    destruct (IH ltac:(lia)) as (IHn & IHt & IHg).
    set (ck := fold_left _ (seq 0 k) c) in *.
    rewrite (IHt k).
    assert (Hgk : get_closure_input_values H ck k
                  = get_closure_input_values H c k).
    { rewrite IHg. now rewrite Nat.ltb_irrefl. }
    destruct (FirstLayeredClosure H <=? get_closure_type H c k) eqn:Ecid.
    + split; [now rewrite Hnum|]. split; [intros i; now rewrite Htype|].
      intros i. destruct (Nat.eq_dec i k) as [->|Hne].
      * rewrite Hsame by lia. rewrite Hgk, Ecid.
        replace (k <? S k)%nat with true; [reflexivity|].
        symmetry. apply Nat.ltb_lt. lia.
      * rewrite Hother by auto. rewrite IHg.
        replace (i <? S k)%nat with (i <? k)%nat; [reflexivity|].
        destruct (Nat.ltb_spec i k), (Nat.ltb_spec i (S k)); auto; lia.
    + split; [exact IHn|]. split; [exact IHt|].
      intros i. rewrite IHg. destruct (Nat.eq_dec i k) as [->|Hne].
      * now rewrite Ecid, !andb_false_r.
      * replace (i <? S k)%nat with (i <? k)%nat; [reflexivity|].
        destruct (Nat.ltb_spec i k), (Nat.ltb_spec i (S k)); auto; lia.
Qed.

(** X13: when writing the input values of one closure keeps the number
    and the types of the closures and the input values of every other
    closure, the injection loop of [prepare_inputs] keeps the number and
    the types of the closures, replaces the input values of every layered
    closure ([cid >= FirstLayeredClosure]) by the result of
    [inject_layered_closure_values] on that closure's own values, and
    leaves every other closure's values as they were. *)
Theorem inject_children_layered_only (bsdf : BSDF W) (c : ClosureData W) :
  (forall c i v,
     get_num_closures H (set_closure_input_values H c i v)
     = get_num_closures H c) ->
  (forall c i v j,
     get_closure_type H (set_closure_input_values H c i v) j
     = get_closure_type H c j) ->
  (forall c i v,
     (i < get_num_closures H c)%nat ->
     get_closure_input_values H (set_closure_input_values H c i v) i = v) ->
  (forall c i v j,
     i <> j ->
     get_closure_input_values H (set_closure_input_values H c i v) j
     = get_closure_input_values H c j) ->
  let c' := inject_children H bsdf c in
  get_num_closures H c' = get_num_closures H c
  /\ (forall i, get_closure_type H c' i = get_closure_type H c i)
  /\ (forall i,
        get_closure_input_values H c' i
        = if (i <? get_num_closures H c)%nat
             && (FirstLayeredClosure H <=? get_closure_type H c i)
          then inject_layered_closure_values H (get_closure_type H c i) bsdf
                 (get_closure_input_values H c i)
          else get_closure_input_values H c i).
Proof.
  intros Hnum Htype Hsame Hother.
  exact (inject_children_prefix bsdf c Hnum Htype Hsame Hother
           (get_num_closures H c) (le_n _)).
Qed.

(** X14: [sample_ior] and [compute_absorption] forward to the substrate
    on the closure tree [prepare_inputs] built: two buffers with the same
    substrate give the same results whatever their roughness, anisotropy,
    reflectance, Fresnel mode and index of refraction. *)
Theorem medium_is_the_substrates
  (M : SubstrateMedium W)
  (shading_context : ShadingContext W) (shading_point : ShadingPoint W)
  (values values' : InputValues W)
  (sampling_context : SamplingContext W)
  (distance : float) (absorption : Spectrum) :
  m_osl_bsdf values = m_osl_bsdf values' ->
  m_substrate values = m_substrate values' ->
  let prepared := prepare_inputs H shading_context shading_point values in
  let prepared' := prepare_inputs H shading_context shading_point values' in
  sample_ior M sampling_context prepared
  = sample_ior M sampling_context prepared'
  /\ compute_absorption M prepared distance absorption
     = compute_absorption M prepared' distance absorption.
Proof.
  intros Hb Hs prepared prepared'.
  unfold sample_ior, compute_absorption, prepared, prepared', prepare_inputs.
  cbn. rewrite Hb, Hs. split; reflexivity.
Qed.

(** X15: for a fixed well-formed anisotropy in [0,1], the widths are
    monotone in the roughness: of two well-formed roughnesses
    [0 < r <= r' <= 1], the larger one gives an [alpha_x] and an [alpha_y]
    that are not smaller, rounding included. *)
Theorem prepare_inputs_monotone
  (shading_context : ShadingContext W) (shading_point : ShadingPoint W)
  (values values' : InputValues W) :
  let r := m_roughness values in
  let r' := m_roughness values' in
  let a := m_anisotropy values in
  let pre :=
    m_precomputed (prepare_inputs H shading_context shading_point values) in
  let pre' :=
    m_precomputed (prepare_inputs H shading_context shading_point values') in
  m_anisotropy values' = a ->
  valid32 r = true -> valid32 r' = true -> valid32 a = true ->
  flt f0 r = true -> fle r r' = true -> fle r' f1 = true ->
  fle f0 a = true -> fle a f1 = true ->
  fle (m_alpha_x pre) (m_alpha_x pre') = true
  /\ fle (m_alpha_y pre) (m_alpha_y pre') = true.
Proof.
  intros r r' a pre pre' Ha Hvr Hvr' Hva Hr0 Hrr Hr1 Ha0 Ha1.
  assert (Hpre : pre = precompute_alpha r a) by reflexivity.
  assert (Hpre' : pre' = precompute_alpha r' a).
  { unfold pre', prepare_inputs. cbn. now rewrite Ha. }
  rewrite Hpre, Hpre'. now apply precompute_alpha_mono.
Qed.

End More.

(* ================================================================= *)
(** * Part VI: the further properties at concrete inputs *)
(* ================================================================= *)

Lemma fresnel_term_mirror_witness :
  let values := ref_values fhalf fhalf Metallic [fhalf; f1; fhalf] in
  flt (vy down) f0 = true
  /\ fresnel_term ref_host values (vneg down) up
     = fresnel_term ref_host values down up.
Proof.
  split; [reflexivity|].
  apply (fresnel_term_mirror ref_types ref_host
           (ref_values fhalf fhalf Metallic [fhalf; f1; fhalf]) down up).
  left. reflexivity.
Defined.

Lemma reflection_pdf_not_negative_witness :
  let values := ref_values fhalf fhalf Dielectric [f1; f1; f1] in
  flt (reflection_pdf ref_host values ref_mdf up up) f0 = false.
Proof.
  apply (reflection_pdf_not_negative ref_types ref_host
           (ref_values fhalf fhalf Dielectric [f1; f1; f1]) ref_mdf up up).
  reflexivity.
Defined.

Lemma density_not_negative_witness :
  let values := ref_values fhalf fhalf Metallic [fhalf; f1; fhalf] in
  flt (evaluate_pdf ref_host values up tt up up 2) f0 = false
  /\ flt (fst (evaluate ref_host values false true up tt up up 2)) f0 = false.
Proof.
  apply (density_not_negative ref_types ref_host
           (ref_values fhalf fhalf Metallic [fhalf; f1; fhalf])
           false true up tt up up 2); reflexivity.
Defined.

Lemma value_not_negative_witness :
  let values := ref_values fhalf fhalf Metallic [fhalf; f1; fhalf] in
  Forall (fun c => flt c f0 = false)
    (snd (evaluate ref_host values false true up tt up up 2)).
Proof.
  apply (value_not_negative ref_types ref_host
           (ref_values fhalf fhalf Metallic [fhalf; f1; fhalf])
           false true up tt up up 2);
    try reflexivity; repeat constructor.
Defined.

Lemma blend_weights_unit_witness :
  let values := ref_values fhalf fhalf Metallic [fhalf; f1; fhalf] in
  let substrate_weight :=
    fsub f1 (fst (fresnel_term ref_host values up up)) in
  fle f0 substrate_weight = true /\ fle substrate_weight f1 = true.
Proof.
  destruct (blend_weights_unit ref_types ref_host
              (ref_values fhalf fhalf Metallic [fhalf; f1; fhalf]) up up
              eq_refl eq_refl) as (H0 & H1 & _).
  split; [exact H0|exact H1].
Defined.

(** A coating without reflectance: the density is the substrate's. *)
Lemma density_limits_witness :
  let values := ref_values fhalf fhalf Dielectric [f0; f0; f0] in
  feq (fst (fresnel_term ref_host values up (vadd up up))) f0 = true
  /\ evaluate_pdf ref_host values up tt up up 2
     = bsdf_evaluate_pdf ref_substrate [] up tt up up 2.
Proof.
  split; [reflexivity|].
  destruct (density_limits ref_types ref_host
              (ref_values fhalf fhalf Dielectric [f0; f0; f0]) up tt up up 2
              eq_refl eq_refl eq_refl eq_refl eq_refl eq_refl) as [Hz _].
  destruct (Hz eq_refl) as [Hs _]. apply Hs. reflexivity.
Defined.

(** A coating without reflectance is never sampled. *)
Lemma sample_degenerate_probability_witness :
  let values := ref_values fhalf fhalf Dielectric [f0; f0; f0] in
  let smp := ref_sample up in
  sample ref_host 0%nat values false true smp
  = bsdf_sample ref_substrate 1%nat [] false false
      (set_value smp [f0; f0; f0]).
Proof.
  apply (sample_degenerate_probability ref_types ref_host 0%nat
           (ref_values fhalf fhalf Dielectric [f0; f0; f0]) false true
           (ref_sample up)).
  right; right. split; reflexivity.
Defined.

Lemma unknown_enumerators_witness :
  let values := ref_values fhalf fhalf Dielectric [fhalf; f1; fhalf] in
  evaluate_pdf ref_host (with_enumerators values 7 Dielectric) up tt up up 2
  = evaluate_pdf ref_host (with_enumerators values GGX Dielectric) up tt up up 2
  /\ evaluate_pdf ref_host (with_enumerators values Beckmann (-3)) up tt up up 2
     = evaluate_pdf ref_host (with_enumerators values Beckmann Metallic)
         up tt up up 2.
Proof.
  split.
  - apply (unknown_enumerators ref_types ref_host
             (ref_values fhalf fhalf Dielectric [fhalf; f1; fhalf])
             7 Dielectric 0%nat (ref_sample up) false true up tt up up 2).
    discriminate.
  - apply (unknown_enumerators ref_types ref_host
             (ref_values fhalf fhalf Dielectric [fhalf; f1; fhalf])
             Beckmann (-3) 0%nat (ref_sample up) false true up tt up up 2).
    discriminate.
Defined.

Lemma evaluate_reflection_grazing_witness :
  let values := ref_values fhalf fhalf Dielectric [f1; f1; f1] in
  evaluate_reflection values ref_mdf up (mkVector3f f1 f0 f0) up [f1; f1; f1]
  = [f0; f0; f0].
Proof.
  apply (evaluate_reflection_grazing ref_types
           (ref_values fhalf fhalf Dielectric [f1; f1; f1]) ref_mdf
           up (mkVector3f f1 f0 f0) up [f1; f1; f1]);
    [reflexivity|reflexivity|left; reflexivity].
Defined.

Lemma tree_set_length (c : list (Z * Z)) (i : nat) (v : Z) :
  length (tree_set c i v) = length c.
Proof.
  revert i. induction c as [|[cid x] c IH]; intros [|i]; cbn; auto.
Qed.

Lemma tree_set_type (c : list (Z * Z)) (i : nat) (v : Z) (j : nat) :
  fst (nth j (tree_set c i v) (0, 0)) = fst (nth j c (0, 0)).
Proof.
  revert i j. induction c as [|[cid x] c IH]; intros [|i] [|j]; cbn; auto.
Qed.

Lemma tree_set_same (c : list (Z * Z)) (i : nat) (v : Z) :
  (i < length c)%nat -> snd (nth i (tree_set c i v) (0, 0)) = v.
Proof.
  revert i. induction c as [|[cid x] c IH]; intros [|i] Hi; cbn in *;
    try lia; auto; apply IH; lia.
Qed.

Lemma tree_set_other (c : list (Z * Z)) (i : nat) (v : Z) (j : nat) :
  i <> j -> snd (nth j (tree_set c i v) (0, 0)) = snd (nth j c (0, 0)).
Proof.
  revert i j. induction c as [|[cid x] c IH]; intros [|i] [|j] Hne; cbn;
    auto; try contradiction; apply IH; congruence.
Qed.

(** Three closures, the last two layered. *)
Lemma inject_children_layered_only_witness :
  let c := [(3, 10); (100, 20); (101, 30)] in
  let c' := inject_children tree_host tree_substrate c in
  get_closure_input_values tree_host c' 0 = 10
  /\ get_closure_input_values tree_host c' 1 = 120
  /\ get_closure_input_values tree_host c' 2 = 131.
Proof.
  destruct (inject_children_layered_only tree_types tree_host tree_substrate
              [(3, 10); (100, 20); (101, 30)]
              tree_set_length tree_set_type tree_set_same tree_set_other)
    as (_ & _ & Hget).
  cbv zeta. rewrite !Hget. repeat split.
Defined.

Lemma medium_is_the_substrates_witness :
  let rough := ref_values f1 f0 Metallic [fhalf; f1; fhalf] in
  let smooth := ref_values fhalf fhalf Dielectric [f1; f1; f1] in
  sample_ior ref_medium 0%nat (prepare_inputs ref_host tt tt rough)
  = sample_ior ref_medium 0%nat (prepare_inputs ref_host tt tt smooth)
  /\ compute_absorption ref_medium
       (prepare_inputs ref_host tt tt rough) f2 [f1; fhalf]
     = compute_absorption ref_medium
         (prepare_inputs ref_host tt tt smooth) f2 [f1; fhalf].
Proof.
  apply (medium_is_the_substrates ref_types ref_host ref_medium tt tt
           (ref_values f1 f0 Metallic [fhalf; f1; fhalf])
           (ref_values fhalf fhalf Dielectric [f1; f1; f1])
           0%nat f2 [f1; fhalf]); reflexivity.
Defined.

(** Roughness 0.5 against roughness 1, at anisotropy 0. *)
Lemma prepare_inputs_monotone_witness :
  let smooth := ref_values fhalf f0 Dielectric [f1; f1; f1] in
  let rough := ref_values f1 f0 Dielectric [f1; f1; f1] in
  let pre := m_precomputed (prepare_inputs ref_host tt tt smooth) in
  let pre' := m_precomputed (prepare_inputs ref_host tt tt rough) in
  fle (m_alpha_x pre) (m_alpha_x pre') = true
  /\ fle (m_alpha_y pre) (m_alpha_y pre') = true.
Proof.
  apply (prepare_inputs_monotone ref_types ref_host tt tt
           (ref_values fhalf f0 Dielectric [f1; f1; f1])
           (ref_values f1 f0 Dielectric [f1; f1; f1])); reflexivity.
Defined.
